(** * archiveCache.js: an LRU-limited, time-expiring cache of archive payloads

    Shallow embedding of [src/lib/archiveCache.js] and the properties of its
    storage and eviction contract.

    The module state of the source is a [Map] ([_archiveStore]) and an array
    of keys ([_archiveOrder]); both are threaded explicitly here.  Every
    reading of [Date.now()] is an explicit argument [now].  The two constants
    [ARCHIVE_CACHE_MAX_SIZE] and [ARCHIVE_CACHE_TTL] are the fields of a
    [config], so that the functions can be studied at other capacities and
    lifetimes than the ones the source fixes. *)

From stdpp Require Import gmap strings list fin_maps.

(** ** Values *)

(** The values found in the fields of a cached object: a number, a string, a
    byte buffer ([buffer]) or a list of strings ([srtFiles]). *)
Inductive jsval : Type :=
  | JNum (z : Z)
  | JStr (s : string)
  | JBuffer (bytes : list Z)
  | JList (items : list string).

#[global] Instance jsval_eq_dec : EqDecision jsval.
Proof. solve_decision. Defined.

(** A JS object: its own enumerable properties, by name. *)
Abbreviation jsobject := (gmap string jsval).

(** ** Configuration and state *)

Record config : Type := Config {
  capacity : nat;   (* ARCHIVE_CACHE_MAX_SIZE *)
  ttl : Z           (* ARCHIVE_CACHE_TTL, milliseconds *)
}.

Definition ARCHIVE_CACHE_MAX_SIZE : nat := 30.
Definition ARCHIVE_CACHE_TTL : Z := (30 * 60 * 1000)%Z.

(** The configuration the source runs with. *)
Definition source_config : config :=
  {| capacity := ARCHIVE_CACHE_MAX_SIZE; ttl := ARCHIVE_CACHE_TTL |}.

Record cache : Type := Cache {
  _archiveStore : gmap string jsobject;  (* key -> { ...value, timestamp } *)
  _archiveOrder : list string            (* front = oldest, back = newest *)
}.

(** The state when the module has just been loaded. *)
Definition empty_cache : cache :=
  {| _archiveStore := ∅; _archiveOrder := [] |}.

(** ** Array primitives used by the source *)

(** [Array.prototype.indexOf]: the first position holding [key]; [None]
    stands for the result [-1]. *)
Fixpoint indexOf (key : string) (l : list string) : option nat :=
  match l with
  | [] => None
  | x :: r => if decide (x = key) then Some 0 else S <$> indexOf key r
  end.

(** [arr.splice(idx, 1)]: the array without the element at [idx]. *)
Definition splice1 (idx : nat) (l : list string) : list string :=
  take idx l ++ drop (S idx) l.

(** [arr.push(key)]. *)
Definition push (key : string) (l : list string) : list string := l ++ [key].

(** [arr.shift()]: the removed first element ([None] is [undefined], on an
    empty array, which is left as it is) and the remaining array. *)
Definition shift (l : list string) : option string * list string :=
  match l with
  | [] => (None, [])
  | x :: r => (Some x, r)
  end.

(** [const idx = arr.indexOf(key); if (idx > -1) arr.splice(idx, 1);] *)
Definition remove_from_order (key : string) (l : list string) : list string :=
  match indexOf key l with
  | Some idx => splice1 idx l
  | None => l
  end.

(** [_archiveStore.delete(k)] where [k] is the result of a [shift()]:
    [undefined] is never a key of the store. *)
Definition store_delete_opt (k : option string)
    (m : gmap string jsobject) : gmap string jsobject :=
  match k with
  | Some key => delete key m
  | None => m
  end.

(** ** The operations *)

(** [Date.now() - item.timestamp > ARCHIVE_CACHE_TTL].  Every object in the
    store was put there by [setArchive], which stamps a number; on an object
    without a numeric [timestamp] the subtraction is not a number and the
    comparison is false. *)
Definition expired (cfg : config) (now : Z) (item : jsobject) : bool :=
  match item !! "timestamp" with
  | Some (JNum t) => bool_decide (ttl cfg < now - t)%Z
  | _ => false
  end.

(** [deleteArchive(key)] *)
Definition deleteArchive (key : string) (st : cache) : cache :=
  {| _archiveStore := delete key (_archiveStore st);
     _archiveOrder := remove_from_order key (_archiveOrder st) |}.

(** [getArchive(key)]: the returned item ([None] is [null]) and the state
    that is left. *)
Definition getArchive (cfg : config) (now : Z) (key : string) (st : cache)
    : option jsobject * cache :=
  match _archiveStore st !! key with
  | None => (None, st)
  | Some item =>
      if expired cfg now item then (None, deleteArchive key st)
      else
        (Some item,
         match indexOf key (_archiveOrder st) with
         | Some idx =>
             {| _archiveStore := _archiveStore st;
                _archiveOrder := push key (splice1 idx (_archiveOrder st)) |}
         | None => st
         end)
  end.

(** The eviction loop of [setArchive],
    [while (_archiveOrder.length >= MAX) { shift; delete }], one unit of
    [fuel] per iteration.  [None]: the fuel ran out with the loop condition
    still true. *)
Fixpoint evict_loop (fuel : nat) (cap : nat) (st : cache) : option cache :=
  if decide (cap ≤ length (_archiveOrder st)) then
    match fuel with
    | O => None
    | S fuel' =>
        let '(oldestKey, rest) := shift (_archiveOrder st) in
        evict_loop fuel' cap
          {| _archiveStore := store_delete_opt oldestKey (_archiveStore st);
             _archiveOrder := rest |}
    end
  else Some st.

(** [{ ...value, timestamp: Date.now() }] *)
Definition stamp (now : Z) (value : jsobject) : jsobject :=
  <["timestamp" := JNum now]> value.

(** [setArchive(key, value)] *)
Definition setArchive (cfg : config) (fuel : nat) (now : Z)
    (key : string) (value : jsobject) (st : cache) : option cache :=
  let st1 :=
    if decide (is_Some (_archiveStore st !! key)) then
      {| _archiveStore := _archiveStore st;
         _archiveOrder := remove_from_order key (_archiveOrder st) |}
    else st in
  st2 ← evict_loop fuel (capacity cfg) st1;
  Some {| _archiveStore := <[key := stamp now value]> (_archiveStore st2);
          _archiveOrder := push key (_archiveOrder st2) |}.

(** The object [getArchiveCacheStats()] returns. *)
Record stats : Type := Stats {
  size : nat;
  maxSize : nat;
  keys : list string
}.

Definition getArchiveCacheStats (cfg : config) (st : cache) : stats * cache :=
  ({| size := base.size (_archiveStore st);
      maxSize := capacity cfg;
      keys := _archiveOrder st |}, st).

(** [ARCHIVE_CACHE.has]: [(key) => _archiveStore.has(key)] *)
Definition has (key : string) (st : cache) : bool * cache :=
  (bool_decide (is_Some (_archiveStore st !! key)), st).

(** ** Sequences of calls *)

(** A call of the exported interface [ARCHIVE_CACHE]. *)
Inductive call : Type :=
  | CallGet (key : string)
  | CallSet (key : string) (value : jsobject)
  | CallDelete (key : string)
  | CallHas (key : string)
  | CallStats.

(** The state a call leaves, when the clock reads [now] during the call. *)
Definition exec (cfg : config) (fuel : nat) (now : Z) (c : call) (st : cache)
    : option cache :=
  match c with
  | CallGet key => Some (getArchive cfg now key st).2
  | CallSet key value => setArchive cfg fuel now key value st
  | CallDelete key => Some (deleteArchive key st)
  | CallHas key => Some (has key st).2
  | CallStats => Some (getArchiveCacheStats cfg st).2
  end.

(** A sequence of calls, each with the reading of the clock during it. *)
Fixpoint run (cfg : config) (fuel : nat) (cs : list (Z * call)) (st : cache)
    : option cache :=
  match cs with
  | [] => Some st
  | (now, c) :: cs' => st' ← exec cfg fuel now c st; run cfg fuel cs' st'
  end.

(** The calls [set(k1, v1); ...; set(kn, vn)], each with its clock reading. *)
Definition set_calls (ins : list (Z * (string * jsobject))) : list (Z * call) :=
  (λ i, (i.1, CallSet i.2.1 i.2.2)) <$> ins.

(** The keys that a sequence of [set] calls inserts, in order. *)
Definition set_keys (ins : list (Z * (string * jsobject))) : list string :=
  (λ i, i.2.1) <$> ins.

(** ** The state invariant *)

(** The keys of the order are exactly the keys of the store, none of them
    twice, and no more of them than the capacity. *)
Definition cache_inv (cfg : config) (st : cache) : Prop :=
  NoDup (_archiveOrder st)
  ∧ dom (_archiveStore st) = list_to_set (_archiveOrder st)
  ∧ length (_archiveOrder st) ≤ capacity cfg.

#[global] Instance cache_inv_dec cfg st : Decision (cache_inv cfg st).
Proof. unfold cache_inv. apply _. Defined.

(** Every stored entry carries a numeric [timestamp]: the case in which
    [expired] compares two numbers. *)
Definition store_stamped (st : cache) : Prop :=
  ∀ k item, _archiveStore st !! k = Some item →
    ∃ t, item !! "timestamp" = Some (JNum t).

(** ** Concrete instances *)

(** A cache of two entries that live for 100 ms, a payload, and a state that
    [set("a", v)] at time 0 and [set("b", v)] at time 10 leave. *)
Definition example_config : config := {| capacity := 2; ttl := 100 |}.

Definition example_value : jsobject :=
  {[ "archiveType" := JStr "zip"; "buffer" := JBuffer [80%Z; 75%Z] ]}.

Definition example_cache : cache :=
  {| _archiveStore :=
       {[ "a" := stamp 0 example_value; "b" := stamp 10 example_value ]};
     _archiveOrder := ["a"; "b"] |}.

(** Calls of every kind, on three keys. *)
Definition example_calls : list (Z * call) :=
  [(0%Z, CallSet "a" example_value); (10%Z, CallSet "b" example_value);
   (20%Z, CallGet "a"); (30%Z, CallSet "c" example_value);
   (40%Z, CallDelete "a"); (50%Z, CallHas "c"); (60%Z, CallStats)].

(** A cache of three entries that live for 100 ms, full: [set("a", v)] at
    time 0, [set("b", v)] at time 10 and [set("c", v)] at time 20 leave it. *)
Definition example_config3 : config := {| capacity := 3; ttl := 100 |}.

Definition example_cache3 : cache :=
  {| _archiveStore :=
       {[ "a" := stamp 0 example_value; "b" := stamp 10 example_value;
          "c" := stamp 20 example_value ]};
     _archiveOrder := ["a"; "b"; "c"] |}.

(** A payload that has a field named [timestamp] of its own. *)
Definition stamped_value : jsobject :=
  {[ "archiveType" := JStr "zip"; "timestamp" := JStr "caller" ]}.

(** * Properties *)

(** ** The array primitives *)

Lemma remove_from_order_cons key x r :
  remove_from_order key (x :: r) =
  if decide (x = key) then r else x :: remove_from_order key r.
Proof.
  unfold remove_from_order; simpl.
  destruct (decide (x = key)) as [->|Hne]; [done|].
  by destruct (indexOf key r).
Qed.

Lemma remove_from_order_notin key l :
  key ∉ l → remove_from_order key l = l.
Proof.
  induction l as [|x r IH]; [done|].
  rewrite not_elem_of_cons, remove_from_order_cons. intros [Hne Hr].
  rewrite decide_False by done. by rewrite IH.
Qed.

Lemma remove_from_order_filter key l :
  NoDup l → remove_from_order key l = filter (λ x, x ≠ key) l.
Proof.
  induction 1 as [|x r Hx Hr IH]; [done|].
  rewrite remove_from_order_cons, filter_cons.
  destruct (decide (x = key)) as [->|Hne].
  - rewrite decide_False by (intros ?; done).
    rewrite <- IH. by rewrite remove_from_order_notin.
  - rewrite decide_True by done. by rewrite IH.
Qed.

Lemma remove_from_order_length key l :
  key ∈ l → S (length (remove_from_order key l)) = length l.
Proof.
  induction l as [|x r IH]; [by rewrite elem_of_nil|].
  rewrite remove_from_order_cons.
  destruct (decide (x = key)) as [->|Hne]; [done|].
  rewrite elem_of_cons. intros [->|Hin]; [done|]. simpl. by rewrite IH.
Qed.

Lemma remove_from_order_length_le key l :
  length (remove_from_order key l) ≤ length l.
Proof.
  destruct (decide (key ∈ l)) as [Hin|Hnin].
  - apply remove_from_order_length in Hin. lia.
  - by rewrite remove_from_order_notin.
Qed.

Lemma indexOf_None key l : indexOf key l = None ↔ key ∉ l.
Proof.
  induction l as [|x r IH]; simpl.
  - split; [intros _; apply not_elem_of_nil | done].
  - rewrite not_elem_of_cons. destruct (decide (x = key)) as [->|Hne].
    + split; [done | by intros []].
    + rewrite fmap_None, IH. split; [intros ? | by intros []].
      split; [by intros -> | done].
Qed.

Lemma indexOf_is_Some key l : is_Some (indexOf key l) ↔ key ∈ l.
Proof.
  rewrite <- not_eq_None_Some, indexOf_None.
  split; [apply dec_stable | by intros ? ?].
Qed.

Lemma filter_ext_elem (P Q : string → Prop)
    `{∀ x, Decision (P x)} `{∀ x, Decision (Q x)} (l : list string) :
  (∀ x, x ∈ l → P x ↔ Q x) → filter P l = filter Q l.
Proof.
  induction l as [|x r IH]; intros HPQ; [done|].
  rewrite !filter_cons, IH.
  - pose proof (HPQ x (list_elem_of_here _ _)) as Hx.
    destruct (decide (P x)), (decide (Q x)); tauto.
  - intros y Hy. apply HPQ. by apply list_elem_of_further.
Qed.

Lemma filter_all (P : string → Prop) `{∀ x, Decision (P x)} (l : list string) :
  (∀ x, x ∈ l → P x) → filter P l = l.
Proof.
  induction l as [|x r IH]; intros HP; [done|].
  rewrite filter_cons_True by (apply HP, list_elem_of_here).
  rewrite IH; [done|]. intros y Hy. by apply HP, list_elem_of_further.
Qed.

(** ** The eviction loop *)

Lemma evict_loop_below fuel cap st :
  length (_archiveOrder st) < cap → evict_loop fuel cap st = Some st.
Proof. intros Hlt. destruct fuel; simpl; by rewrite decide_False by lia. Qed.

Lemma evict_loop_full fuel cap k r m :
  1 ≤ cap → length (k :: r) = cap →
  evict_loop (S fuel) cap (Cache m (k :: r)) = Some (Cache (delete k m) r).
Proof.
  simpl. intros Hcap Hlen. rewrite decide_True by lia.
  apply evict_loop_below. simpl. lia.
Qed.

(** With capacity 0 the loop condition [length >= 0] never fails. *)
Lemma evict_loop_zero fuel st : evict_loop fuel 0 st = None.
Proof.
  generalize (eq_refl 0). generalize 0 at 1 3 as cap. intros cap Hcap.
  revert st. induction fuel as [|fuel IH]; intros st; simpl.
  - by rewrite decide_True by lia.
  - rewrite decide_True by lia. destruct (shift _). apply IH.
Qed.

Lemma evict_loop_terminates fuel cap st :
  1 ≤ cap → length (_archiveOrder st) + 1 - cap ≤ fuel →
  is_Some (evict_loop fuel cap st).
Proof.
  intros Hcap. revert st.
  induction fuel as [|fuel IH]; intros st Hfuel; simpl.
  - rewrite decide_False by lia. eauto.
  - destruct (decide (cap ≤ length (_archiveOrder st))); [|eauto].
    destruct (_archiveOrder st) as [|k r] eqn:Eo; simpl in *; [lia|].
    apply IH. simpl. lia.
Qed.

Lemma evict_loop_length fuel cap st st' :
  evict_loop fuel cap st = Some st' → length (_archiveOrder st') < cap.
Proof.
  revert st. induction fuel as [|fuel IH]; intros st; simpl.
  - destruct (decide _); [done|]. intros [= <-]. lia.
  - destruct (decide _); [|intros [= <-]; lia].
    destruct (shift _). apply IH.
Qed.

Lemma evict_loop_fuel_mono fuel fuel' cap st st' :
  evict_loop fuel cap st = Some st' → fuel ≤ fuel' →
  evict_loop fuel' cap st = Some st'.
Proof.
  revert fuel' st. induction fuel as [|fuel IH]; intros fuel' st; simpl.
  - destruct (decide _) as [|Hn]; [done|]. intros [= <-] _.
    apply evict_loop_below. lia.
  - destruct (decide _) as [Hle|Hn].
    + destruct fuel' as [|fuel']; [lia|]. simpl. rewrite decide_True by done.
      destruct (shift _). intros H ?. apply IH; [done | lia].
    + intros [= <-] _. apply evict_loop_below. lia.
Qed.

(** ** [setArchive] *)

Lemma setArchive_zero fuel ttl0 now key value st :
  setArchive (Config 0 ttl0) fuel now key value st = None.
Proof. unfold setArchive. simpl. by rewrite evict_loop_zero. Qed.

Lemma setArchive_terminates cfg fuel now key value st :
  1 ≤ capacity cfg → length (_archiveOrder st) + 1 - capacity cfg ≤ fuel →
  is_Some (setArchive cfg fuel now key value st).
Proof.
  intros Hcap Hfuel. unfold setArchive.
  match goal with |- context [evict_loop _ _ ?s] =>
    destruct (evict_loop_terminates fuel (capacity cfg) s) as [st2 ->]
  end; simpl; eauto.
  destruct (decide _); simpl; [|lia].
  pose proof (remove_from_order_length_le key (_archiveOrder st)). lia.
Qed.

Lemma setArchive_fuel_mono cfg fuel fuel' now key value st st' :
  setArchive cfg fuel now key value st = Some st' → fuel ≤ fuel' →
  setArchive cfg fuel' now key value st = Some st'.
Proof.
  unfold setArchive. intros H Hle.
  match type of H with context [evict_loop _ _ ?s] =>
    destruct (evict_loop fuel (capacity cfg) s) as [st2|] eqn:E; [|done];
    rewrite (evict_loop_fuel_mono _ fuel' _ _ _ E Hle)
  end.
  done.
Qed.

Lemma inv_elem_of cfg st k :
  cache_inv cfg st → k ∈ _archiveOrder st ↔ is_Some (_archiveStore st !! k).
Proof.
  intros (_ & Hdom & _).
  by rewrite <- elem_of_dom, Hdom, elem_of_list_to_set.
Qed.

(** What [setArchive] does from a state that satisfies the invariant: it
    overwrites, or appends, or evicts the front key and appends. *)
Lemma setArchive_cases cfg fuel now key value st st' :
  cache_inv cfg st →
  setArchive cfg fuel now key value st = Some st' →
  (is_Some (_archiveStore st !! key)
   ∧ st' = Cache (<[key := stamp now value]> (_archiveStore st))
                 (push key (remove_from_order key (_archiveOrder st))))
  ∨ (_archiveStore st !! key = None
     ∧ length (_archiveOrder st) < capacity cfg
     ∧ st' = Cache (<[key := stamp now value]> (_archiveStore st))
                   (push key (_archiveOrder st)))
  ∨ (_archiveStore st !! key = None
     ∧ length (_archiveOrder st) = capacity cfg
     ∧ ∃ k r, _archiveOrder st = k :: r
       ∧ st' = Cache (<[key := stamp now value]> (delete k (_archiveStore st)))
                     (push key r)).
Proof.
  intros Hinv. pose proof Hinv as (Hnd & Hdom & Hcap).
  unfold setArchive. destruct (decide _) as [Hin|Hnin]; simpl.
  - rewrite evict_loop_below; simpl.
    + intros [= <-]. by left.
    + apply (inv_elem_of cfg) in Hin; [|done].
      apply remove_from_order_length in Hin. lia.
  - apply eq_None_not_Some in Hnin.
    destruct (decide (length (_archiveOrder st) < capacity cfg)) as [Hlt|Hge].
    + rewrite evict_loop_below by done. simpl. intros [= <-]. right; left. done.
    + assert (length (_archiveOrder st) = capacity cfg) as Hfull by lia.
      destruct (decide (capacity cfg = 0)) as [Hz|Hnz].
      { rewrite Hz, evict_loop_zero. done. }
      destruct fuel as [|fuel].
      { simpl. rewrite decide_True by lia. done. }
      destruct st as [m [|k r]]; simpl in *; [lia|].
      rewrite decide_True by lia. rewrite evict_loop_below by (simpl; lia).
      simpl. intros [= <-]. right; right. eauto 10.
Qed.

Lemma setArchive_inv_terminates cfg fuel now key value st :
  cache_inv cfg st → 1 ≤ capacity cfg → 1 ≤ fuel →
  is_Some (setArchive cfg fuel now key value st).
Proof.
  intros (_ & _ & Hlen) Hcap Hfuel. apply setArchive_terminates; lia.
Qed.

(** ** The invariant is kept by every operation *)

Lemma empty_cache_inv cfg : cache_inv cfg empty_cache.
Proof.
  unfold cache_inv; simpl. split_and!; [apply NoDup_nil_2 | | lia].
  by rewrite dom_empty_L.
Qed.

Lemma inv_size cfg st :
  cache_inv cfg st →
  base.size (_archiveStore st) = length (_archiveOrder st).
Proof.
  intros (Hnd & Hdom & _).
  by rewrite <- size_dom, Hdom, size_list_to_set.
Qed.

Lemma deleteArchive_inv cfg key st :
  cache_inv cfg st → cache_inv cfg (deleteArchive key st).
Proof.
  intros (Hnd & Hdom & Hlen). unfold deleteArchive, cache_inv; simpl.
  rewrite remove_from_order_filter by done. split_and!.
  - by apply NoDup_filter.
  - rewrite dom_delete_L, Hdom. apply set_eq. intros k.
    rewrite elem_of_difference, !elem_of_list_to_set, list_elem_of_filter,
      elem_of_singleton. tauto.
  - pose proof (length_filter (λ x, x ≠ key) (_archiveOrder st)). lia.
Qed.

Lemma move_to_back_inv cfg key st :
  cache_inv cfg st → key ∈ _archiveOrder st →
  cache_inv cfg (Cache (_archiveStore st)
                       (push key (remove_from_order key (_archiveOrder st)))).
Proof.
  intros (Hnd & Hdom & Hlen) Hin. unfold cache_inv, push; simpl.
  pose proof (remove_from_order_length _ _ Hin) as Hl.
  rewrite remove_from_order_filter in * by done. split_and!.
  - apply NoDup_app. split_and!; [by apply NoDup_filter | | apply NoDup_singleton].
    intros k. rewrite list_elem_of_filter, list_elem_of_singleton. tauto.
  - rewrite Hdom. apply set_eq. intros k.
    rewrite !elem_of_list_to_set, elem_of_app, list_elem_of_filter,
      list_elem_of_singleton.
    destruct (decide (k = key)) as [->|]; tauto.
  - rewrite length_app. simpl. lia.
Qed.

Lemma getArchive_order cfg now key st item :
  _archiveStore st !! key = Some item → expired cfg now item = false →
  (getArchive cfg now key st).2 =
  match indexOf key (_archiveOrder st) with
  | Some _ => Cache (_archiveStore st)
                    (push key (remove_from_order key (_archiveOrder st)))
  | None => st
  end.
Proof.
  intros Hitem Hexp. unfold getArchive, remove_from_order.
  rewrite Hitem, Hexp. simpl. by destruct (indexOf _ _).
Qed.

Lemma getArchive_inv cfg now key st :
  cache_inv cfg st → cache_inv cfg (getArchive cfg now key st).2.
Proof.
  intros Hinv.
  destruct (_archiveStore st !! key) as [item|] eqn:Hitem.
  - destruct (expired cfg now item) eqn:Hexp.
    + unfold getArchive. rewrite Hitem, Hexp. simpl.
      by apply deleteArchive_inv.
    + rewrite (getArchive_order _ _ _ _ _ Hitem Hexp).
      destruct (indexOf _ _) eqn:Hidx; [|done].
      apply move_to_back_inv; [done|]. apply indexOf_is_Some. eauto.
  - unfold getArchive. by rewrite Hitem.
Qed.

Lemma setArchive_inv cfg fuel now key value st st' :
  cache_inv cfg st → setArchive cfg fuel now key value st = Some st' →
  cache_inv cfg st'.
Proof.
  intros Hinv Hset. pose proof Hinv as (Hnd & Hdom & Hlen).
  destruct (setArchive_cases _ _ _ _ _ _ _ Hinv Hset)
    as [[Hin ->]|[(Hnone & Hlt & ->)|(Hnone & Hfull & k & r & Ho & ->)]].
  - apply (inv_elem_of cfg) in Hin as Hin'; [|done].
    destruct (move_to_back_inv cfg key st Hinv Hin') as (? & Hd & ?).
    split_and!; simpl in *; [done | | done].
    rewrite dom_insert_L, <- Hd.
    apply elem_of_dom in Hin. set_solver.
  - assert (key ∉ _archiveOrder st) as Hnin.
    { rewrite (inv_elem_of cfg) by done. rewrite Hnone. by intros []. }
    unfold cache_inv, push; simpl. split_and!.
    + apply NoDup_app. split_and!; [done | | apply NoDup_singleton].
      intros k ? ->%list_elem_of_singleton. done.
    + rewrite dom_insert_L, Hdom, list_to_set_app_L. simpl. set_solver.
    + rewrite length_app. simpl. lia.
  - assert (key ∉ _archiveOrder st) as Hnin.
    { rewrite (inv_elem_of cfg) by done. rewrite Hnone. by intros []. }
    rewrite Ho in *. apply NoDup_cons in Hnd as [Hk Hr].
    apply not_elem_of_cons in Hnin as [Hne Hnin].
    unfold cache_inv, push; simpl in *. split_and!.
    + apply NoDup_app. split_and!; [done | | apply NoDup_singleton].
      intros k' ? ->%list_elem_of_singleton. done.
    + rewrite dom_insert_L, dom_delete_L, Hdom, list_to_set_app_L. simpl.
      set_solver.
    + rewrite length_app. simpl. lia.
Qed.

Lemma exec_inv cfg fuel now c st st' :
  cache_inv cfg st → exec cfg fuel now c st = Some st' → cache_inv cfg st'.
Proof.
  intros Hinv. destruct c as [key|key value|key|key|]; simpl.
  - intros [= <-]. by apply getArchive_inv.
  - by apply setArchive_inv.
  - intros [= <-]. by apply deleteArchive_inv.
  - by intros [= <-].
  - by intros [= <-].
Qed.

Lemma run_inv cfg fuel cs st st' :
  cache_inv cfg st → run cfg fuel cs st = Some st' → cache_inv cfg st'.
Proof.
  revert st. induction cs as [|[now c] cs IH]; intros st Hinv; simpl.
  - by intros [= <-].
  - destruct (exec cfg fuel now c st) as [st1|] eqn:E; [|done]. simpl.
    apply IH. by eapply exec_inv.
Qed.

Lemma exec_terminates cfg fuel now c st :
  cache_inv cfg st → 1 ≤ capacity cfg → 1 ≤ fuel →
  is_Some (exec cfg fuel now c st).
Proof.
  intros Hinv Hcap Hfuel. destruct c; simpl; eauto.
  by apply setArchive_inv_terminates.
Qed.

Lemma run_terminates cfg fuel cs st :
  cache_inv cfg st → 1 ≤ capacity cfg → 1 ≤ fuel →
  is_Some (run cfg fuel cs st).
Proof.
  intros Hinv Hcap Hfuel. revert st Hinv.
  induction cs as [|[now c] cs IH]; intros st Hinv; simpl; [eauto|].
  destruct (exec_terminates cfg fuel now c st) as [st1 E]; [done..|].
  rewrite E. simpl. apply IH. by eapply exec_inv.
Qed.

(** ** What [setArchive] leaves, from any state *)

Lemma stamp_timestamp now value :
  stamp now value !! "timestamp" = Some (JNum now).
Proof. apply lookup_insert_eq. Qed.

Lemma setArchive_stored cfg fuel now key value st st' :
  setArchive cfg fuel now key value st = Some st' →
  length (_archiveOrder st') ≤ capacity cfg
  ∧ last (_archiveOrder st') = Some key
  ∧ _archiveStore st' !! key = Some (stamp now value).
Proof.
  unfold setArchive.
  destruct (evict_loop _ _ _) as [st2|] eqn:E; [|done]. simpl.
  intros [= <-]. apply evict_loop_length in E. unfold push; simpl.
  split_and!; [ | apply last_snoc | apply lookup_insert_eq].
  rewrite length_app. simpl. lia.
Qed.

Lemma getArchive_unexpired cfg now now' key value st :
  _archiveStore st !! key = Some (stamp now value) →
  (now' - now ≤ ttl cfg)%Z →
  (getArchive cfg now' key st).1 = Some (stamp now value).
Proof.
  intros Hitem Hnow'. unfold getArchive. rewrite Hitem.
  unfold expired. rewrite stamp_timestamp.
  by rewrite bool_decide_eq_false_2 by lia.
Qed.

(** ** The three ways of [setArchive] *)

Lemma setArchive_overwrite cfg fuel now key value st :
  cache_inv cfg st → is_Some (_archiveStore st !! key) →
  setArchive cfg fuel now key value st =
  Some (Cache (<[key := stamp now value]> (_archiveStore st))
              (push key (remove_from_order key (_archiveOrder st)))).
Proof.
  intros Hinv Hin. unfold setArchive. rewrite decide_True by done.
  rewrite evict_loop_below; [done|]. simpl.
  apply (inv_elem_of cfg) in Hin; [|done].
  apply remove_from_order_length in Hin. destruct Hinv as (_ & _ & ?). lia.
Qed.

Lemma setArchive_fresh cfg fuel now key value st :
  _archiveStore st !! key = None →
  length (_archiveOrder st) < capacity cfg →
  setArchive cfg fuel now key value st =
  Some (Cache (<[key := stamp now value]> (_archiveStore st))
              (push key (_archiveOrder st))).
Proof.
  intros Hnone Hlt. unfold setArchive.
  rewrite decide_False by (rewrite Hnone; by intros []).
  by rewrite evict_loop_below.
Qed.

Lemma setArchive_evict cfg fuel now key value m k r :
  m !! key = None → 1 ≤ capacity cfg → length (k :: r) = capacity cfg →
  setArchive cfg (S fuel) now key value (Cache m (k :: r)) =
  Some (Cache (<[key := stamp now value]> (delete k m)) (push key r)).
Proof.
  intros Hnone Hcap Hfull. unfold setArchive.
  rewrite decide_False by (simpl; rewrite Hnone; by intros []).
  by rewrite evict_loop_full.
Qed.

(** ** Sequences *)

Lemma run_app cfg fuel cs1 cs2 st :
  run cfg fuel (cs1 ++ cs2) st = run cfg fuel cs1 st ≫= run cfg fuel cs2.
Proof.
  revert st. induction cs1 as [|[now c] cs1 IH]; intros st; simpl; [done|].
  destruct (exec cfg fuel now c st); simpl; [apply IH | done].
Qed.

Lemma set_keys_snoc ins now k v :
  set_keys (ins ++ [(now, (k, v))]) = set_keys ins ++ [k].
Proof. unfold set_keys. by rewrite fmap_app. Qed.

Lemma set_calls_snoc ins now k v :
  set_calls (ins ++ [(now, (k, v))]) = set_calls ins ++ [(now, CallSet k v)].
Proof. unfold set_calls. by rewrite fmap_app. Qed.

(** Inserting keys that are new and distinct, while there is room, appends
    them to the order. *)
Lemma run_sets_fresh cfg fuel ins st :
  cache_inv cfg st → NoDup (set_keys ins) →
  (∀ k, k ∈ set_keys ins → _archiveStore st !! k = None) →
  length (_archiveOrder st) + length ins ≤ capacity cfg →
  ∃ st', run cfg fuel (set_calls ins) st = Some st'
    ∧ _archiveOrder st' = _archiveOrder st ++ set_keys ins
    ∧ cache_inv cfg st'.
Proof.
  revert st. induction ins as [|[now [k v]] ins IH]; intros st Hinv Hnd Hnew Hlen.
  - exists st. simpl. by rewrite app_nil_r.
  - simpl in *. apply NoDup_cons in Hnd as [Hk Hnd].
    assert (_archiveStore st !! k = None) as Hnone
      by (apply Hnew; apply list_elem_of_here).
    rewrite setArchive_fresh by (done || lia). simpl.
    set (st1 := Cache _ _).
    assert (cache_inv cfg st1) as Hinv1.
    { apply (setArchive_inv cfg fuel now k v st); [done|].
      by rewrite setArchive_fresh by (done || lia). }
    destruct (IH st1) as (st' & Hrun & Ho & Hinv'); [done | done | | | ].
    + intros k' Hk'. subst st1; simpl. rewrite lookup_insert_ne.
      * apply Hnew. by apply list_elem_of_further.
      * by intros ->.
    + subst st1; unfold push; simpl. rewrite length_app. simpl. lia.
    + exists st'. split_and!; [done | | done].
      rewrite Ho. subst st1; unfold push; simpl. by rewrite <- app_assoc.
Qed.

(** ** Every stored entry is stamped *)

Lemma evict_loop_lookup fuel cap st st' k item :
  evict_loop fuel cap st = Some st' →
  _archiveStore st' !! k = Some item → _archiveStore st !! k = Some item.
Proof.
  revert st. induction fuel as [|fuel IH]; intros st; simpl.
  - destruct (decide _); [done|]. by intros [= <-].
  - destruct (decide _); [|by intros [= <-]].
    destruct (shift _) as [[k0|] rest]; intros E Hk;
      specialize (IH _ E Hk); simpl in IH; [|done].
    by apply lookup_delete_Some in IH as [_ ?].
Qed.

Lemma exec_stamped cfg fuel now c st st' :
  store_stamped st → exec cfg fuel now c st = Some st' → store_stamped st'.
Proof.
  intros Hst. destruct c as [key|key value|key|key|]; simpl.
  - intros [= <-]. unfold getArchive.
    destruct (_archiveStore st !! key) as [item|]; [|done].
    destruct (expired cfg now item); simpl.
    + intros k i. simpl. intros [_ Hk]%lookup_delete_Some. by eapply Hst.
    + by destruct (indexOf _ _).
  - unfold setArchive.
    destruct (evict_loop _ _ _) as [st2|] eqn:E; [|done]. simpl.
    intros [= <-] k i. simpl.
    destruct (decide (key = k)) as [->|Hne].
    + rewrite lookup_insert_eq. intros [= <-]. exists now.
      apply stamp_timestamp.
    + rewrite lookup_insert_ne by done. intros Hk.
      apply (evict_loop_lookup _ _ _ _ _ _ E) in Hk.
      destruct (decide _); by eapply Hst.
  - intros [= <-] k i. simpl. intros [_ Hk]%lookup_delete_Some.
    by eapply Hst.
  - by intros [= <-].
  - by intros [= <-].
Qed.

(** Whatever the calls, [getArchive] never meets an entry without a numeric
    [timestamp]. *)
Lemma run_stamped cfg fuel cs st' :
  run cfg fuel cs empty_cache = Some st' → store_stamped st'.
Proof.
  assert (∀ st, store_stamped st → run cfg fuel cs st = Some st' →
                store_stamped st') as Hgen.
  { induction cs as [|[now c] cs IH]; intros st Hst; simpl.
    - by intros [= <-].
    - destruct (exec cfg fuel now c st) as [st1|] eqn:E; [|done]. simpl.
      apply IH. by eapply exec_stamped. }
  apply Hgen. intros k item. simpl. by rewrite lookup_empty.
Qed.

(** * The claims *)

(** C1.  Starting from the freshly loaded module, after every completed
    sequence of get, set, delete, has and stats calls: a key is in the
    recency order exactly when it is in the mapping, no key is twice in the
    order, the size of the mapping is the length of the order and is at most
    the capacity, and the keys of [stats().keys] are exactly the keys for
    which [has] answers true.  With a capacity of at least 1 every such
    sequence completes, one iteration of the eviction loop per set being
    enough. *)
Theorem order_mapping_consistency cfg fuel cs :
  (1 ≤ capacity cfg → 1 ≤ fuel → is_Some (run cfg fuel cs empty_cache))
  ∧ ∀ st', run cfg fuel cs empty_cache = Some st' →
      (∀ k, k ∈ _archiveOrder st' ↔ is_Some (_archiveStore st' !! k))
      ∧ NoDup (_archiveOrder st')
      ∧ base.size (_archiveStore st') = length (_archiveOrder st')
      ∧ length (_archiveOrder st') ≤ capacity cfg
      ∧ (∀ k, k ∈ keys (getArchiveCacheStats cfg st').1
              ↔ (has k st').1 = true).
Proof.
  split.
  - intros. apply run_terminates; [apply empty_cache_inv | done..].
  - intros st' Hrun.
    assert (cache_inv cfg st') as Hinv
      by (eapply run_inv; [apply empty_cache_inv | done]).
    pose proof Hinv as (Hnd & Hdom & Hlen). split_and!; [ | done | | done | ].
    + intros k. by apply (inv_elem_of cfg).
    + by apply (inv_size cfg).
    + intros k. simpl. rewrite bool_decide_eq_true.
      by apply (inv_elem_of cfg).
Qed.

(** C2.  Whenever [set(key, value)] returns, the recency order is no longer
    than the capacity, [key] is in the mapping and at the back of the order
    (and, from a state that satisfies the invariant, nowhere else in it), and
    the stored entry has every field of [value] other than [timestamp] as
    [value] has it and the time of the call as its [timestamp]; a [get] of
    the key at any time within [ttl] of that call returns this new entry,
    whatever was stored for the key before and however old that was.  With a
    capacity of at least 1, [set] returns. *)
Theorem setArchive_post cfg fuel now key value st :
  (1 ≤ capacity cfg → length (_archiveOrder st) ≤ fuel →
   is_Some (setArchive cfg fuel now key value st))
  ∧ ∀ st', setArchive cfg fuel now key value st = Some st' →
      length (_archiveOrder st') ≤ capacity cfg
      ∧ last (_archiveOrder st') = Some key
      ∧ (has key st').1 = true
      ∧ (cache_inv cfg st → cache_inv cfg st')
      ∧ ∃ item,
          _archiveStore st' !! key = Some item
          ∧ item !! "timestamp" = Some (JNum now)
          ∧ (∀ f, f ≠ "timestamp" → item !! f = value !! f)
          ∧ ∀ now', (now' - now ≤ ttl cfg)%Z →
              (getArchive cfg now' key st').1 = Some item.
Proof.
  split; [intros; apply setArchive_terminates; lia|].
  intros st' Hset.
  destruct (setArchive_stored _ _ _ _ _ _ _ Hset) as (Hlen & Hlast & Hitem).
  split_and!; [done | done | | | ].
  - simpl. apply bool_decide_eq_true_2. by rewrite Hitem.
  - intros Hinv. by eapply setArchive_inv.
  - exists (stamp now value).
    split_and!; [done | apply stamp_timestamp | | ].
    + intros f Hf. unfold stamp. by rewrite lookup_insert_ne.
    + intros now' Hnow'. by apply getArchive_unexpired.
Qed.

(** C3.  In a state that satisfies the invariant: [get] of a key that is not
    in the mapping returns absent and leaves the state as it is; [get] of a
    key whose entry is older than [ttl] removes the key from the mapping and
    from the recency order and returns absent; [get] of any other key returns
    the entry, leaves the mapping (so the stored timestamp) as it is and
    moves the key to the back of the order, the other keys keeping their
    order. *)
Theorem getArchive_spec cfg now key st :
  cache_inv cfg st →
  (_archiveStore st !! key = None → getArchive cfg now key st = (None, st))
  ∧ (∀ item t,
       _archiveStore st !! key = Some item →
       item !! "timestamp" = Some (JNum t) → (ttl cfg < now - t)%Z →
       (getArchive cfg now key st).1 = None
       ∧ _archiveStore (getArchive cfg now key st).2
         = delete key (_archiveStore st)
       ∧ _archiveOrder (getArchive cfg now key st).2
         = filter (λ k, k ≠ key) (_archiveOrder st)
       ∧ _archiveStore (getArchive cfg now key st).2 !! key = None
       ∧ key ∉ _archiveOrder (getArchive cfg now key st).2)
  ∧ (∀ item t,
       _archiveStore st !! key = Some item →
       item !! "timestamp" = Some (JNum t) → (now - t ≤ ttl cfg)%Z →
       (getArchive cfg now key st).1 = Some item
       ∧ _archiveStore (getArchive cfg now key st).2 = _archiveStore st
       ∧ _archiveOrder (getArchive cfg now key st).2
         = filter (λ k, k ≠ key) (_archiveOrder st) ++ [key]
       ∧ last (_archiveOrder (getArchive cfg now key st).2) = Some key).
Proof.
  intros Hinv. pose proof Hinv as (Hnd & Hdom & Hlen). split_and!.
  - intros Hnone. unfold getArchive. by rewrite Hnone.
  - intros item t Hitem Hts Hold.
    assert (expired cfg now item = true) as Hexp.
    { unfold expired. rewrite Hts. by apply bool_decide_eq_true_2. }
    unfold getArchive. rewrite Hitem, Hexp. simpl.
    rewrite remove_from_order_filter by done.
    split_and!; [done | done | done | apply lookup_delete_eq | ].
    rewrite list_elem_of_filter. tauto.
  - intros item t Hitem Hts Hfresh.
    assert (expired cfg now item = false) as Hexp.
    { unfold expired. rewrite Hts. apply bool_decide_eq_false_2. lia. }
    assert (key ∈ _archiveOrder st) as Hin
      by (apply (inv_elem_of cfg); [done | by rewrite Hitem]).
    apply indexOf_is_Some in Hin as [idx Hidx].
    rewrite (getArchive_order _ _ _ _ _ Hitem Hexp), Hidx.
    unfold getArchive. rewrite Hitem, Hexp. simpl.
    rewrite remove_from_order_filter by done. unfold push.
    split_and!; [done | done | done | apply last_snoc].
Qed.

(** ** Eviction and recency *)

(** A [set] of a new key on a full cache evicts the front of the order. *)
Lemma set_evicts_front cfg fuel now key value st :
  cache_inv cfg st → 1 ≤ capacity cfg → 1 ≤ fuel →
  _archiveStore st !! key = None →
  length (_archiveOrder st) = capacity cfg →
  ∃ st' lru rest,
    _archiveOrder st = lru :: rest
    ∧ setArchive cfg fuel now key value st = Some st'
    ∧ _archiveOrder st' = rest ++ [key]
    ∧ (has lru st').1 = false
    ∧ (has key st').1 = true
    ∧ ∀ k, k ∈ rest →
        _archiveStore st' !! k = _archiveStore st !! k
        ∧ (has k st').1 = true.
Proof.
  intros Hinv Hcap Hfuel Hnone Hfull.
  assert (key ∉ _archiveOrder st) as Hnin.
  { rewrite (inv_elem_of cfg) by done. rewrite Hnone. by intros []. }
  destruct st as [m [|lru rest]]; simpl in *; [lia|].
  destruct fuel as [|fuel]; [lia|].
  pose proof Hinv as (Hnd & _ & _). simpl in Hnd.
  apply NoDup_cons in Hnd as [Hlru _].
  apply not_elem_of_cons in Hnin as [Hne Hnin].
  eexists _, lru, rest. split; [done|].
  split; [by apply setArchive_evict|]. simpl. split_and!; [done | | | ].
  - apply bool_decide_eq_false_2.
    rewrite lookup_insert_ne, lookup_delete_eq by done. by intros [].
  - apply bool_decide_eq_true_2. rewrite lookup_insert_eq. eauto.
  - intros k Hk.
    assert (key ≠ k) by (by intros ->). assert (lru ≠ k) by (by intros ->).
    rewrite lookup_insert_ne, lookup_delete_ne by done. split; [done|].
    apply bool_decide_eq_true_2.
    apply (inv_elem_of cfg (Cache m (lru :: rest)) k Hinv). simpl.
    by apply list_elem_of_further.
Qed.

(** A [get] that finds its entry unexpired takes the key out of the order,
    wherever it stands, and puts it at the back. *)
Lemma get_moves_to_back cfg now key st item t :
  cache_inv cfg st →
  _archiveStore st !! key = Some item →
  item !! "timestamp" = Some (JNum t) → (now - t ≤ ttl cfg)%Z →
  ∃ before after,
    _archiveOrder st = before ++ key :: after
    ∧ filter (λ k, k ≠ key) (_archiveOrder st) = before ++ after
    ∧ getArchive cfg now key st
      = (Some item, Cache (_archiveStore st) (before ++ after ++ [key])).
Proof.
  intros Hinv Hitem Hts Hfresh. pose proof Hinv as (Hnd & _ & _).
  assert (expired cfg now item = false) as Hexp.
  { unfold expired. rewrite Hts. apply bool_decide_eq_false_2. lia. }
  assert (key ∈ _archiveOrder st) as Hin
    by (apply (inv_elem_of cfg); [done | by rewrite Hitem]).
  pose proof Hin as (before & after & Ho)%list_elem_of_split.
  exists before, after. split; [done|].
  assert (filter (λ k, k ≠ key) (_archiveOrder st) = before ++ after) as Hf.
  { rewrite Ho in Hnd |- *. apply NoDup_app in Hnd as (_ & Hb & Hka).
    apply NoDup_cons in Hka as [Ha _].
    rewrite filter_app, filter_cons_False by (intros ?; done).
    rewrite !filter_all; [done | | ].
    - intros k Hk ->. done.
    - intros k Hk ->. apply (Hb _ Hk). apply list_elem_of_here. }
  split; [done|].
  apply indexOf_is_Some in Hin as [idx Hidx].
  pose proof (getArchive_order _ _ _ _ _ Hitem Hexp) as Hst.
  rewrite Hidx in Hst.
  assert ((getArchive cfg now key st).1 = Some item) as Hres
    by (unfold getArchive; by rewrite Hitem, Hexp).
  destruct (getArchive cfg now key st) as [res st1]. simpl in *.
  subst res st1. unfold push.
  by rewrite remove_from_order_filter, Hf, <- app_assoc by done.
Qed.

(** On a full cache of at least two keys, a successful [get(key)] followed by
    a [set] of a new key evicts the oldest of the other keys and keeps
    [key]. *)
Lemma get_then_set_evicts_next cfg fuel now now' key new value st item t :
  cache_inv cfg st → 2 ≤ capacity cfg → 1 ≤ fuel →
  length (_archiveOrder st) = capacity cfg →
  _archiveStore st !! key = Some item →
  item !! "timestamp" = Some (JNum t) → (now - t ≤ ttl cfg)%Z →
  _archiveStore st !! new = None →
  ∃ st' lru rest,
    filter (λ k, k ≠ key) (_archiveOrder st) = lru :: rest
    ∧ run cfg fuel [(now, CallGet key); (now', CallSet new value)] st
      = Some st'
    ∧ _archiveOrder st' = rest ++ [key; new]
    ∧ (has lru st').1 = false
    ∧ (has key st').1 = true
    ∧ (has new st').1 = true.
Proof.
  intros Hinv Hcap Hfuel Hfull Hitem Hts Hfresh Hnew.
  destruct (get_moves_to_back _ _ _ _ _ _ Hinv Hitem Hts Hfresh)
    as (before & after & Ho & Hf & Hget).
  pose proof (getArchive_inv cfg now key st Hinv) as Hinv1.
  rewrite Hget in Hinv1. simpl in Hinv1.
  set (st1 := Cache _ _) in Hinv1.
  assert (length (before ++ after) = capacity cfg - 1) as Hlen.
  { rewrite Ho in Hfull. rewrite length_app in *. simpl in Hfull. lia. }
  destruct (set_evicts_front cfg fuel now' new value st1)
    as (st' & lru & rest1 & Ho1 & Hset & Ho' & Hlru & Hn & Hrest);
    [done | lia | done | done | | ].
  { subst st1. simpl. rewrite app_assoc, length_app, Hlen. simpl. lia. }
  destruct (before ++ after) as [|lru0 rest] eqn:Eba; [simpl in Hlen; lia|].
  subst st1. simpl in *. rewrite app_assoc, Eba in Ho1. simpl in Ho1.
  injection Ho1 as E1 E2. subst lru0 rest1.
  exists st', lru, rest. rewrite Hget. simpl. rewrite app_assoc, Eba.
  simpl. split_and!; [done | | | done | | done].
  - rewrite app_assoc, Eba in Hset. simpl in Hset. by rewrite Hset.
  - by rewrite Ho', <- app_assoc.
  - apply (Hrest key). apply elem_of_app. right. apply list_elem_of_here.
Qed.

Lemma lru_scenarios :
  (∀ cfg fuel ins k1 klast,
     1 ≤ capacity cfg → 1 ≤ fuel →
     NoDup (set_keys ins) → length ins = S (capacity cfg) →
     head (set_keys ins) = Some k1 → last (set_keys ins) = Some klast →
     ∃ st', run cfg fuel (set_calls ins) empty_cache = Some st'
       ∧ (has k1 st').1 = false
       ∧ (has klast st').1 = true
       ∧ ∀ k, k ∈ set_keys ins → k ≠ k1 → (has k st').1 = true)
  ∧ (∀ ttl0 fuel k1 k2 k3 v1 v2 v3 t1 t2 t3 t4,
       k1 ≠ k2 → k1 ≠ k3 → k2 ≠ k3 → 1 ≤ fuel → (t3 - t1 ≤ ttl0)%Z →
       ∃ st2 st',
         run (Config 2 ttl0) fuel
           [(t1, CallSet k1 v1); (t2, CallSet k2 v2)] empty_cache = Some st2
         ∧ (getArchive (Config 2 ttl0) t3 k1 st2).1 = Some (stamp t1 v1)
         ∧ run (Config 2 ttl0) fuel
             [(t1, CallSet k1 v1); (t2, CallSet k2 v2);
              (t3, CallGet k1); (t4, CallSet k3 v3)] empty_cache = Some st'
         ∧ (has k2 st').1 = false
         ∧ (has k1 st').1 = true
         ∧ (has k3 st').1 = true).
Proof.
  split.
  - intros cfg fuel ins k1 klast Hcap Hfuel Hnd Hlen Hhd Hlast.
    destruct ins as [|[now [kl v]] ins0 _] using rev_ind; [done|].
    rewrite set_keys_snoc in *. rewrite set_calls_snoc.
    rewrite last_snoc in Hlast. injection Hlast as ->.
    rewrite length_app in Hlen. simpl in Hlen.
    apply NoDup_app in Hnd as (Hnd0 & Hdisj & _).
    assert (klast ∉ set_keys ins0) as Hnew.
    { intros Hin. apply (Hdisj _ Hin). apply list_elem_of_here. }
    destruct (run_sets_fresh cfg fuel ins0 empty_cache)
      as ([m o] & Hrun & Ho & Hinv); simpl;
      [apply empty_cache_inv | done | intros; apply lookup_empty | lia | ].
    simpl in Ho. subst o.
    assert (length (set_keys ins0) = capacity cfg) as Hlen0
      by (unfold set_keys; rewrite length_fmap; lia).
    destruct (set_keys ins0) as [|k0 r]; simpl in *; [lia|].
    injection Hhd as ->.
    apply not_elem_of_cons in Hnew as [Hne Hnew].
    assert (m !! klast = None) as Hnone.
    { apply eq_None_not_Some. intros Hs.
      apply (inv_elem_of cfg (Cache m _) klast Hinv) in Hs. simpl in Hs.
      apply elem_of_cons in Hs as [?|?]; done. }
    destruct fuel as [|fuel]; [lia|].
    eexists. split.
    { rewrite run_app, Hrun. simpl. by rewrite setArchive_evict. }
    simpl. split_and!.
    + apply bool_decide_eq_false_2.
      rewrite lookup_insert_ne, lookup_delete_eq by done. by intros [].
    + apply bool_decide_eq_true_2. rewrite lookup_insert_eq. eauto.
    + intros k Hk Hkne. apply bool_decide_eq_true_2.
      destruct (decide (klast = k)) as [->|Hkl].
      { rewrite lookup_insert_eq. eauto. }
      rewrite lookup_insert_ne, lookup_delete_ne by done.
      apply (inv_elem_of cfg (Cache m _) k Hinv). simpl.
      apply elem_of_cons in Hk as [?|Hk]; [done|].
      apply elem_of_app in Hk as [Hk|Hk]; [by apply list_elem_of_further|].
      apply list_elem_of_singleton in Hk. done.
  - intros ttl0 fuel k1 k2 k3 v1 v2 v3 t1 t2 t3 t4 H12 H13 H23 Hfuel Hget.
    destruct fuel as [|fuel]; [lia|].
    set (cfg := Config 2 ttl0).
    set (m2 := <[k2 := stamp t2 v2]> (<[k1 := stamp t1 v1]> ∅)
               : gmap string jsobject).
    assert (setArchive cfg (S fuel) t1 k1 v1 empty_cache
            = Some (Cache (<[k1 := stamp t1 v1]> ∅) [k1])) as E1.
    { rewrite setArchive_fresh; [done | apply lookup_empty | simpl; lia]. }
    assert (setArchive cfg (S fuel) t2 k2 v2 (Cache (<[k1 := stamp t1 v1]> ∅) [k1])
            = Some (Cache m2 [k1; k2])) as E2.
    { rewrite setArchive_fresh; [done | | simpl; lia].
      simpl. by rewrite lookup_insert_ne, lookup_empty. }
    assert (getArchive cfg t3 k1 (Cache m2 [k1; k2])
            = (Some (stamp t1 v1), Cache m2 [k2; k1])) as E3.
    { assert (m2 !! k1 = Some (stamp t1 v1)) as Hm
        by (unfold m2; by rewrite lookup_insert_ne, lookup_insert_eq).
      assert (expired cfg t3 (stamp t1 v1) = false) as Hexp.
      { unfold expired, stamp. rewrite lookup_insert_eq.
        apply bool_decide_eq_false_2. simpl. lia. }
      unfold getArchive; simpl. rewrite Hm, Hexp.
      by rewrite decide_True. }
    assert (setArchive cfg (S fuel) t4 k3 v3 (Cache m2 [k2; k1])
            = Some (Cache (<[k3 := stamp t4 v3]> (delete k2 m2)) [k1; k3])) as E4.
    { rewrite setArchive_evict; [done | | simpl; lia | done].
      unfold m2. by rewrite !lookup_insert_ne, lookup_empty. }
    exists (Cache m2 [k1; k2]), (Cache (<[k3 := stamp t4 v3]> (delete k2 m2)) [k1; k3]).
    split_and!.
    + simpl. rewrite E1. simpl. by rewrite E2.
    + by rewrite E3.
    + simpl. rewrite E1. simpl. rewrite E2. simpl. rewrite E3. simpl.
      by rewrite E4.
    + simpl. apply bool_decide_eq_false_2.
      rewrite lookup_insert_ne, lookup_delete_eq by done. by intros [].
    + simpl. apply bool_decide_eq_true_2. unfold m2.
      rewrite lookup_insert_ne, lookup_delete_ne, lookup_insert_ne,
        lookup_insert_eq by done. eauto.
    + simpl. apply bool_decide_eq_true_2. rewrite lookup_insert_eq. eauto.
Qed.


(** C4.  Eviction removes the least recently used key and a successful read
    refreshes recency.  In a state that satisfies the invariant: a [set] of a
    new key on a full cache (capacity at least 1) removes the front key of
    the order and no other; a [get] that returns its entry moves the key,
    from wherever it stands in the order, to the back, the other keys keeping
    their order; and on a full cache of at least two keys such a [get(key)]
    followed by the [set] of a new key evicts the oldest of the other keys,
    not [key].  In particular, with a capacity of at least 1, setting
    [capacity + 1] distinct keys [k1 .. k_{capacity+1}] in this order on the
    fresh cache evicts [k1] and nothing else, and with capacity 2, after
    [set k1], [set k2], a [get k1] that finds the entry unexpired, and
    [set k3], the key [k2] is gone while [k1] and [k3] are kept. *)
Theorem lru_eviction_order :
  (∀ cfg fuel now key value st,
     cache_inv cfg st → 1 ≤ capacity cfg → 1 ≤ fuel →
     _archiveStore st !! key = None →
     length (_archiveOrder st) = capacity cfg →
     ∃ st' lru rest,
       _archiveOrder st = lru :: rest
       ∧ setArchive cfg fuel now key value st = Some st'
       ∧ _archiveOrder st' = rest ++ [key]
       ∧ (has lru st').1 = false
       ∧ (has key st').1 = true
       ∧ ∀ k, k ∈ rest →
           _archiveStore st' !! k = _archiveStore st !! k
           ∧ (has k st').1 = true)
  ∧ (∀ cfg now key st item t,
       cache_inv cfg st →
       _archiveStore st !! key = Some item →
       item !! "timestamp" = Some (JNum t) → (now - t ≤ ttl cfg)%Z →
       ∃ before after,
         _archiveOrder st = before ++ key :: after
         ∧ filter (λ k, k ≠ key) (_archiveOrder st) = before ++ after
         ∧ getArchive cfg now key st
           = (Some item, Cache (_archiveStore st) (before ++ after ++ [key])))
  ∧ (∀ cfg fuel now now' key new value st item t,
       cache_inv cfg st → 2 ≤ capacity cfg → 1 ≤ fuel →
       length (_archiveOrder st) = capacity cfg →
       _archiveStore st !! key = Some item →
       item !! "timestamp" = Some (JNum t) → (now - t ≤ ttl cfg)%Z →
       _archiveStore st !! new = None →
       ∃ st' lru rest,
         filter (λ k, k ≠ key) (_archiveOrder st) = lru :: rest
         ∧ run cfg fuel [(now, CallGet key); (now', CallSet new value)] st
           = Some st'
         ∧ _archiveOrder st' = rest ++ [key; new]
         ∧ (has lru st').1 = false
         ∧ (has key st').1 = true
         ∧ (has new st').1 = true)
  ∧ (∀ cfg fuel ins k1 klast,
       1 ≤ capacity cfg → 1 ≤ fuel →
       NoDup (set_keys ins) → length ins = S (capacity cfg) →
       head (set_keys ins) = Some k1 → last (set_keys ins) = Some klast →
       ∃ st', run cfg fuel (set_calls ins) empty_cache = Some st'
         ∧ (has k1 st').1 = false
         ∧ (has klast st').1 = true
         ∧ ∀ k, k ∈ set_keys ins → k ≠ k1 → (has k st').1 = true)
  ∧ (∀ ttl0 fuel k1 k2 k3 v1 v2 v3 t1 t2 t3 t4,
       k1 ≠ k2 → k1 ≠ k3 → k2 ≠ k3 → 1 ≤ fuel → (t3 - t1 ≤ ttl0)%Z →
       ∃ st2 st',
         run (Config 2 ttl0) fuel
           [(t1, CallSet k1 v1); (t2, CallSet k2 v2)] empty_cache = Some st2
         ∧ (getArchive (Config 2 ttl0) t3 k1 st2).1 = Some (stamp t1 v1)
         ∧ run (Config 2 ttl0) fuel
             [(t1, CallSet k1 v1); (t2, CallSet k2 v2);
              (t3, CallGet k1); (t4, CallSet k3 v3)] empty_cache = Some st'
         ∧ (has k2 st').1 = false
         ∧ (has k1 st').1 = true
         ∧ (has k3 st').1 = true).
Proof.
  split_and!.
  - apply set_evicts_front.
  - apply get_moves_to_back.
  - apply get_then_set_evicts_next.
  - apply (proj1 lru_scenarios).
  - apply (proj2 lru_scenarios).
Qed.

(** Bounded completion of [set].  With a capacity of at least 1, from a state
    that satisfies the invariant, [set(key, value)] returns after at most one
    iteration of its eviction loop and leaves a state that satisfies the
    invariant, so that [stats().size] is at most the capacity; from any state
    at all it returns after at most [length order + 1 - capacity]
    iterations. *)
Theorem setArchive_bounded cfg fuel now key value st :
  1 ≤ capacity cfg →
  (length (_archiveOrder st) + 1 - capacity cfg ≤ fuel →
   is_Some (setArchive cfg fuel now key value st))
  ∧ (cache_inv cfg st → 1 ≤ fuel →
     ∃ st', setArchive cfg fuel now key value st = Some st'
       ∧ cache_inv cfg st'
       ∧ size (getArchiveCacheStats cfg st').1 ≤ capacity cfg
       ∧ length (keys (getArchiveCacheStats cfg st').1) ≤ capacity cfg).
Proof.
  intros Hcap. split.
  - intros Hfuel. by apply setArchive_terminates.
  - intros Hinv Hfuel.
    destruct (setArchive_inv_terminates cfg fuel now key value st)
      as [st' Hset]; [done..|].
    exists st'. pose proof (setArchive_inv _ _ _ _ _ _ _ Hinv Hset) as Hinv'.
    pose proof (inv_size _ _ Hinv') as Hsize.
    destruct Hinv' as (? & ? & ?). simpl. rewrite Hsize.
    by split_and!.
Qed.

(** C6 (amended).  Whenever [set(key, value)] returns, a [get] of the key
    within [ttl] of the call returns an entry that has, for every field name
    other than [timestamp], exactly what [value] has under that name (the
    field with its value, or no field), and whose [timestamp] is the time of
    the [set] call, whatever [value] had there.  With a capacity of at least
    1, [set] returns. *)
Theorem setArchive_payload cfg fuel now key value st :
  (1 ≤ capacity cfg → length (_archiveOrder st) ≤ fuel →
   is_Some (setArchive cfg fuel now key value st))
  ∧ ∀ st' now', setArchive cfg fuel now key value st = Some st' →
      (now' - now ≤ ttl cfg)%Z →
      ∃ item, (getArchive cfg now' key st').1 = Some item
        ∧ (∀ f, f ≠ "timestamp" → item !! f = value !! f)
        ∧ item !! "timestamp" = Some (JNum now).
Proof.
  split; [intros; apply setArchive_terminates; lia|].
  intros st' now' Hset Hnow'.
  destruct (setArchive_stored _ _ _ _ _ _ _ Hset) as (_ & _ & Hitem).
  exists (stamp now value).
  split_and!; [by apply getArchive_unexpired | | apply stamp_timestamp].
  intros f Hf. unfold stamp. by rewrite lookup_insert_ne.
Qed.

(** C7.  [has(key)] is true exactly when the key is in the mapping, whatever
    the age of its entry: for an entry older than [ttl], [has] is still true,
    the [get] that finds it expired returns absent, and [has] is false in the
    state that this [get] leaves. *)
Theorem has_raw_presence cfg now key st :
  ((has key st).1 = true ↔ is_Some (_archiveStore st !! key))
  ∧ ∀ item t,
      _archiveStore st !! key = Some item →
      item !! "timestamp" = Some (JNum t) → (ttl cfg < now - t)%Z →
      (has key st).1 = true
      ∧ (getArchive cfg now key st).1 = None
      ∧ (has key (getArchive cfg now key st).2).1 = false.
Proof.
  split; [apply bool_decide_eq_true|].
  intros item t Hitem Hts Hold.
  assert (expired cfg now item = true) as Hexp.
  { unfold expired. rewrite Hts. by apply bool_decide_eq_true_2. }
  unfold getArchive. rewrite Hitem, Hexp. simpl. split_and!; [ | done | ].
  - apply bool_decide_eq_true_2. by rewrite Hitem.
  - apply bool_decide_eq_false_2. rewrite lookup_delete_eq. by intros [].
Qed.

(** C8.  In a state that satisfies the invariant, [delete(key)] leaves the
    key neither in the mapping nor in the recency order and touches no other
    key; when the key is not in the mapping it leaves the state (and so
    [stats().size]) as it is; deleting twice is deleting once. *)
Theorem deleteArchive_spec cfg key st :
  cache_inv cfg st →
  _archiveStore (deleteArchive key st) !! key = None
  ∧ (key ∉ _archiveOrder (deleteArchive key st))
  ∧ (∀ k, k ≠ key →
       _archiveStore (deleteArchive key st) !! k = _archiveStore st !! k)
  ∧ _archiveOrder (deleteArchive key st)
    = filter (λ k, k ≠ key) (_archiveOrder st)
  ∧ (_archiveStore st !! key = None →
       deleteArchive key st = st
       ∧ size (getArchiveCacheStats cfg (deleteArchive key st)).1
         = size (getArchiveCacheStats cfg st).1)
  ∧ deleteArchive key (deleteArchive key st) = deleteArchive key st.
Proof.
  intros Hinv. pose proof Hinv as (Hnd & Hdom & Hlen).
  assert (_archiveOrder (deleteArchive key st)
          = filter (λ k, k ≠ key) (_archiveOrder st)) as Ho
    by (simpl; by apply remove_from_order_filter).
  assert (key ∉ _archiveOrder (deleteArchive key st)) as Hnin
    by (rewrite Ho, list_elem_of_filter; tauto).
  assert (∀ st0, _archiveStore st0 !! key = None → key ∉ _archiveOrder st0 →
                 deleteArchive key st0 = st0) as Hnoop.
  { intros [m o] Hm Hk. unfold deleteArchive; simpl in *.
    by rewrite delete_id, remove_from_order_notin. }
  split_and!; [apply lookup_delete_eq | done | | done | | ].
  - intros k Hk. simpl. by rewrite lookup_delete_ne.
  - intros Hnone. rewrite Hnoop; [done | done | ].
    rewrite (inv_elem_of cfg) by done. rewrite Hnone. by intros [].
  - apply Hnoop; [apply lookup_delete_eq | done].
Qed.

(** C9.  From a state that satisfies the invariant, with a capacity of at
    least 1, [set(key, value)] returns and removes at most one key,
    [evicted]: it is the front of the recency order, is not [key], and is
    removed only when [key] is new and the cache is full.  Every other key
    than [key] and [evicted] keeps its entry, and these keys keep their
    relative order. *)
Theorem setArchive_frame cfg fuel now key value st :
  cache_inv cfg st → 1 ≤ capacity cfg → 1 ≤ fuel →
  ∃ st' (evicted : option string),
    setArchive cfg fuel now key value st = Some st'
    ∧ (evicted = None
       ∨ (is_Some evicted
          ∧ evicted = head (_archiveOrder st)
          ∧ evicted ≠ Some key
          ∧ _archiveStore st !! key = None
          ∧ length (_archiveOrder st) = capacity cfg))
    ∧ (∀ k, is_Some (_archiveStore st !! k) →
            _archiveStore st' !! k = None → evicted = Some k)
    ∧ (∀ k, k ≠ key → evicted ≠ Some k →
            _archiveStore st' !! k = _archiveStore st !! k)
    ∧ filter (λ k, k ≠ key) (_archiveOrder st')
      = filter (λ k, k ≠ key ∧ evicted ≠ Some k) (_archiveOrder st).
Proof.
  intros Hinv Hcap Hfuel. pose proof Hinv as (Hnd & Hdom & Hlen).
  destruct (setArchive_inv_terminates cfg fuel now key value st)
    as [st' Hset]; [done..|].
  exists st'.
  assert (filter (λ k, k ≠ key) [key] = []) as Hk
    by (by rewrite filter_cons_False, filter_nil by (intros ?; done)).
  destruct (setArchive_cases _ _ _ _ _ _ _ Hinv Hset)
    as [[Hin ->]|[(Hnone & Hlt & ->)|(Hnone & Hfull & k0 & r & Ho & ->)]].
  - exists None. simpl. split_and!; [done | by left | | | ].
    + intros k Hsome. destruct (decide (k = key)) as [->|Hne].
      * by rewrite lookup_insert_eq.
      * rewrite lookup_insert_ne by done. intros E. rewrite E in Hsome.
        by destruct Hsome.
    + intros k Hne _. by rewrite lookup_insert_ne.
    + unfold push. rewrite filter_app, Hk, app_nil_r.
      rewrite remove_from_order_filter by done.
      rewrite list_filter_filter. apply list_filter_iff. intros k.
      split; [intros []; by split | intros [? _]; by split].
  - exists None. simpl. split_and!; [done | by left | | | ].
    + intros k Hsome. destruct (decide (k = key)) as [->|Hne].
      * by rewrite lookup_insert_eq.
      * rewrite lookup_insert_ne by done. intros E. rewrite E in Hsome.
        by destruct Hsome.
    + intros k Hne _. by rewrite lookup_insert_ne.
    + unfold push. rewrite filter_app, Hk, app_nil_r.
      apply list_filter_iff. intros k. split; [by split | by intros []].
  - assert (key ∉ _archiveOrder st) as Hnin.
    { rewrite (inv_elem_of cfg) by done. rewrite Hnone. by intros []. }
    rewrite Ho in *. apply NoDup_cons in Hnd as [Hk0 Hr].
    apply not_elem_of_cons in Hnin as [Hne0 Hnin].
    exists (Some k0). simpl. split_and!; [done | right | | | ].
    + split_and!; [by eexists | done | congruence | done | done].
    + intros k Hsome. destruct (decide (k = key)) as [->|Hne].
      * by rewrite lookup_insert_eq.
      * rewrite lookup_insert_ne by done.
        destruct (decide (k = k0)) as [->|Hne']; [done|].
        rewrite lookup_delete_ne by done. intros E. rewrite E in Hsome.
        by destruct Hsome.
    + intros k Hne Hev. rewrite lookup_insert_ne by done.
      rewrite lookup_delete_ne; [done|]. intros ->. by apply Hev.
    + unfold push. rewrite filter_app, Hk, app_nil_r.
      rewrite filter_cons_False by (intros [_ ?]; done).
      apply filter_ext_elem. intros k Hkr. split; [|by intros []].
      intros Hne. split; [done|]. intros [= ->]. done.
Qed.

(** C10.  [has(key)] leaves the state exactly as it found it: the same
    mapping with the same entries and timestamps and the same recency order,
    also when the entry of [key] is older than [ttl]. *)
Theorem has_no_side_effect key st :
  (has key st).2 = st
  ∧ _archiveStore (has key st).2 = _archiveStore st
  ∧ _archiveOrder (has key st).2 = _archiveOrder st
  ∧ ∀ cfg now item,
      _archiveStore st !! key = Some item → expired cfg now item = true →
      _archiveStore (has key st).2 !! key = Some item.
Proof. by split_and!. Qed.

(** * The claims at concrete inputs *)

Example example_cache_reached :
  run example_config 1
    [(0%Z, CallSet "a" example_value); (10%Z, CallSet "b" example_value)]
    empty_cache = Some example_cache.
Proof. vm_compute. reflexivity. Qed.

Example example_calls_result :
  run example_config 1 example_calls empty_cache
  = Some (Cache {[ "c" := stamp 30 example_value ]} ["c"]).
Proof. vm_compute. reflexivity. Qed.

Lemma order_mapping_consistency_witness :
  ∃ st',
    run example_config 1 example_calls empty_cache = Some st'
    ∧ (∀ k, k ∈ _archiveOrder st' ↔ is_Some (_archiveStore st' !! k))
    ∧ NoDup (_archiveOrder st')
    ∧ base.size (_archiveStore st') = length (_archiveOrder st')
    ∧ length (_archiveOrder st') ≤ capacity example_config
    ∧ (∀ k, k ∈ keys (getArchiveCacheStats example_config st').1
            ↔ (has k st').1 = true).
Proof.
  eexists. split; [vm_compute; reflexivity|].
  apply (proj2 (order_mapping_consistency example_config 1 example_calls)).
  vm_compute. reflexivity.
Defined.

Lemma setArchive_post_witness :
  ∃ st1 st2 item,
    setArchive example_config 1 0 "k" example_value empty_cache = Some st1
    ∧ setArchive example_config 1 90 "k" stamped_value st1 = Some st2
    ∧ length (_archiveOrder st2) ≤ capacity example_config
    ∧ last (_archiveOrder st2) = Some "k"
    ∧ _archiveStore st2 !! "k" = Some item
    ∧ item !! "timestamp" = Some (JNum 90)
    ∧ item !! "archiveType" = stamped_value !! "archiveType"
    ∧ item !! "buffer" = stamped_value !! "buffer"
    ∧ (getArchive example_config 100 "k" st2).1 = Some item
    ∧ (getArchive example_config 150 "k" st2).1 = Some item.
Proof.
  assert (setArchive example_config 1 0 "k" example_value empty_cache
          = Some (Cache {[ "k" := stamp 0 example_value ]} ["k"])) as H1
    by (vm_compute; reflexivity).
  assert (setArchive example_config 1 90 "k" stamped_value
            (Cache {[ "k" := stamp 0 example_value ]} ["k"])
          = Some (Cache {[ "k" := stamp 90 stamped_value ]} ["k"])) as H2
    by (vm_compute; reflexivity).
  destruct (proj2 (setArchive_post example_config 1 90 "k" stamped_value
                     (Cache {[ "k" := stamp 0 example_value ]} ["k"])) _ H2)
    as (Hlen & Hlast & _ & _ & item & Hitem & Hts & Hf & Hget).
  exists (Cache {[ "k" := stamp 0 example_value ]} ["k"]),
         (Cache {[ "k" := stamp 90 stamped_value ]} ["k"]), item.
  assert (100 - 90 ≤ ttl example_config)%Z as T1 by (simpl; lia).
  assert (150 - 90 ≤ ttl example_config)%Z as T2 by (simpl; lia).
  assert ("archiveType" ≠ "timestamp") as F1 by discriminate.
  assert ("buffer" ≠ "timestamp") as F2 by discriminate.
  exact (conj H1 (conj H2 (conj Hlen (conj Hlast (conj Hitem (conj Hts
          (conj (Hf _ F1) (conj (Hf _ F2)
             (conj (Hget _ T1) (Hget _ T2)))))))))).
Defined.

Lemma getArchive_spec_witness :
  cache_inv example_config example_cache
  ∧ (_archiveStore example_cache !! "zz" = None
     ∧ getArchive example_config 50 "zz" example_cache = (None, example_cache))
  ∧ (_archiveStore example_cache !! "a" = Some (stamp 0 example_value)
     ∧ stamp 0 example_value !! "timestamp" = Some (JNum 0)
     ∧ (ttl example_config < 150 - 0)%Z
     ∧ (getArchive example_config 150 "a" example_cache).1 = None
     ∧ _archiveStore (getArchive example_config 150 "a" example_cache).2 !! "a"
       = None
     ∧ "a" ∉ _archiveOrder (getArchive example_config 150 "a" example_cache).2)
  ∧ (_archiveStore example_cache !! "a" = Some (stamp 0 example_value)
     ∧ (50 - 0 ≤ ttl example_config)%Z
     ∧ (getArchive example_config 50 "a" example_cache).1
       = Some (stamp 0 example_value)
     ∧ _archiveStore (getArchive example_config 50 "a" example_cache).2
       = _archiveStore example_cache
     ∧ last (_archiveOrder (getArchive example_config 50 "a" example_cache).2)
       = Some "a").
Proof.
  assert (cache_inv example_config example_cache) as Hinv
    by (apply (bool_decide_unpack _); vm_compute; exact I).
  assert (_archiveStore example_cache !! "zz" = None) as Hzz
    by (vm_compute; reflexivity).
  assert (_archiveStore example_cache !! "a" = Some (stamp 0 example_value))
    as Ha by (vm_compute; reflexivity).
  assert (stamp 0 example_value !! "timestamp" = Some (JNum 0)) as Hts
    by (vm_compute; reflexivity).
  assert (ttl example_config < 150 - 0)%Z as Hold by (simpl; lia).
  assert (50 - 0 ≤ ttl example_config)%Z as Hnew by (simpl; lia).
  destruct (getArchive_spec example_config 150 "a" example_cache Hinv)
    as (_ & Hexp & _).
  destruct (getArchive_spec example_config 50 "a" example_cache Hinv)
    as (_ & _ & Hfresh).
  destruct (getArchive_spec example_config 50 "zz" example_cache Hinv)
    as (Habs & _ & _).
  destruct (Hexp _ _ Ha Hts Hold) as (E1 & _ & _ & E2 & E3).
  destruct (Hfresh _ _ Ha Hts Hnew) as (F1 & F2 & _ & F3).
  split; [exact Hinv|]. split; [exact (conj Hzz (Habs Hzz))|].
  split; [exact (conj Ha (conj Hts (conj Hold (conj E1 (conj E2 E3)))))|].
  exact (conj Ha (conj Hnew (conj F1 (conj F2 F3)))).
Defined.

Example get_refreshes_middle_key :
  getArchive example_config3 50 "b" example_cache3
  = (Some (stamp 10 example_value),
     Cache (_archiveStore example_cache3) ["a"; "c"; "b"]).
Proof. vm_compute. reflexivity. Qed.

Example get_then_set_evicts_front :
  run example_config3 1
    [(50%Z, CallGet "b"); (60%Z, CallSet "d" example_value)] example_cache3
  = Some (Cache {[ "b" := stamp 10 example_value;
                   "c" := stamp 20 example_value;
                   "d" := stamp 60 example_value ]} ["c"; "b"; "d"]).
Proof. vm_compute. reflexivity. Qed.

Lemma lru_eviction_order_witness :
  cache_inv example_config3 example_cache3
  ∧ (∃ st' lru rest,
       _archiveOrder example_cache3 = lru :: rest
       ∧ setArchive example_config3 1 30 "d" example_value example_cache3
         = Some st'
       ∧ _archiveOrder st' = rest ++ ["d"]
       ∧ (has lru st').1 = false
       ∧ (has "d" st').1 = true)
  ∧ (∃ before after,
       _archiveOrder example_cache3 = before ++ "b" :: after
       ∧ getArchive example_config3 50 "b" example_cache3
         = (Some (stamp 10 example_value),
            Cache (_archiveStore example_cache3) (before ++ after ++ ["b"])))
  ∧ (∃ st' lru rest,
       filter (λ k, k ≠ "b") (_archiveOrder example_cache3) = lru :: rest
       ∧ run example_config3 1
           [(50%Z, CallGet "b"); (60%Z, CallSet "d" example_value)]
           example_cache3 = Some st'
       ∧ _archiveOrder st' = rest ++ ["b"; "d"]
       ∧ (has lru st').1 = false
       ∧ (has "b" st').1 = true
       ∧ (has "d" st').1 = true)
  ∧ (∃ st',
       run example_config 1
         (set_calls [(0%Z, ("a", example_value)); (1%Z, ("b", example_value));
                     (2%Z, ("c", example_value))]) empty_cache = Some st'
       ∧ (has "a" st').1 = false ∧ (has "c" st').1 = true)
  ∧ (∃ st',
       run example_config 1
         [(0%Z, CallSet "a" example_value); (1%Z, CallSet "b" example_value);
          (2%Z, CallGet "a"); (3%Z, CallSet "c" example_value)] empty_cache
       = Some st'
       ∧ (has "b" st').1 = false ∧ (has "a" st').1 = true
       ∧ (has "c" st').1 = true).
Proof.
  destruct lru_eviction_order as (HA & HB & HC & HD & HE).
  assert (cache_inv example_config3 example_cache3) as Hinv
    by (apply (bool_decide_unpack _); vm_compute; exact I).
  assert (_archiveStore example_cache3 !! "b" = Some (stamp 10 example_value))
    as Hb by (vm_compute; reflexivity).
  assert (stamp 10 example_value !! "timestamp" = Some (JNum 10)) as Hts
    by (vm_compute; reflexivity).
  assert (50 - 10 ≤ ttl example_config3)%Z as Hfresh by (simpl; lia).
  assert (_archiveStore example_cache3 !! "d" = None) as Hd
    by (vm_compute; reflexivity).
  assert (length (_archiveOrder example_cache3) = capacity example_config3)
    as Hfull by reflexivity.
  split; [exact Hinv|]. split_and!.
  - destruct (HA example_config3 1 30%Z "d" example_value example_cache3)
      as (st' & lru & rest & Ho & Hset & Ho' & Hlru & Hnew & _);
      [exact Hinv | simpl; lia | lia | exact Hd | exact Hfull | ].
    exists st', lru, rest.
    exact (conj Ho (conj Hset (conj Ho' (conj Hlru Hnew)))).
  - destruct (HB example_config3 50%Z "b" example_cache3 _ _
                Hinv Hb Hts Hfresh) as (before & after & Ho & _ & Hget).
    exists before, after. exact (conj Ho Hget).
  - apply (HC example_config3 1 50%Z 60%Z "b" "d" example_value
             example_cache3 (stamp 10 example_value) 10%Z Hinv);
      [simpl; lia | lia | exact Hfull | exact Hb | exact Hts | exact Hfresh
      | exact Hd].
  - destruct (HD example_config 1
                [(0%Z, ("a", example_value)); (1%Z, ("b", example_value));
                 (2%Z, ("c", example_value))] "a" "c")
      as (st' & Hrun & Ha & Hc & _).
    + simpl; lia.
    + lia.
    + apply (bool_decide_unpack _). vm_compute. exact I.
    + reflexivity.
    + reflexivity.
    + reflexivity.
    + exists st'. exact (conj Hrun (conj Ha Hc)).
  - destruct (HE 100%Z 1 "a" "b" "c"
                example_value example_value example_value 0%Z 1%Z 2%Z 3%Z)
      as (st2 & st' & _ & _ & Hrun & Hb' & Ha & Hc).
    + discriminate.
    + discriminate.
    + discriminate.
    + lia.
    + lia.
    + exists st'. exact (conj Hrun (conj Hb' (conj Ha Hc))).
Defined.

(** The capacity is a parameter of the embedding only: the source runs at
    [ARCHIVE_CACHE_MAX_SIZE = 30] and nowhere else.  At the value 0 of the
    parameter the condition of the eviction loop,
    [_archiveOrder.length >= 0], holds at every iteration, and no amount of
    fuel lets [setArchive] return; this is why the completion results above
    ask for a capacity of at least 1. *)
Lemma setArchive_capacity_zero_never_returns :
  ¬ ∃ fuel st',
      setArchive {| capacity := 0; ttl := ARCHIVE_CACHE_TTL |} fuel 0
        "k" example_value empty_cache = Some st'.
Proof. intros (fuel & st' & H). by rewrite setArchive_zero in H. Qed.

Lemma setArchive_bounded_witness :
  1 ≤ capacity example_config
  ∧ cache_inv example_config example_cache
  ∧ ∃ st',
      setArchive example_config 1 20 "c" example_value example_cache = Some st'
      ∧ cache_inv example_config st'
      ∧ size (getArchiveCacheStats example_config st').1
        ≤ capacity example_config
      ∧ length (keys (getArchiveCacheStats example_config st').1)
        ≤ capacity example_config.
Proof.
  assert (1 ≤ capacity example_config) as Hcap by (simpl; lia).
  assert (cache_inv example_config example_cache) as Hinv
    by (apply (bool_decide_unpack _); vm_compute; exact I).
  split; [exact Hcap|]. split; [exact Hinv|].
  apply (proj2 (setArchive_bounded example_config 1 20 "c" example_value
                  example_cache Hcap) Hinv).
  lia.
Defined.

(** C6, as stated, fails: a field named [timestamp] that the caller supplies
    is not returned; the entry holds the time of the [set] call there. *)
Lemma caller_timestamp_is_overwritten :
  ∃ st' item,
    setArchive source_config 1 5 "k" stamped_value empty_cache = Some st'
    ∧ (getArchive source_config 6 "k" st').1 = Some item
    ∧ stamped_value !! "timestamp" = Some (JStr "caller")
    ∧ item !! "timestamp" = Some (JNum 5)
    ∧ item !! "timestamp" ≠ stamped_value !! "timestamp".
Proof.
  do 2 eexists. split; [vm_compute; reflexivity|].
  split; [vm_compute; reflexivity|].
  split; [vm_compute; reflexivity|].
  split; [vm_compute; reflexivity|].
  vm_compute. discriminate.
Qed.

Lemma setArchive_payload_witness :
  ∃ st' item,
    setArchive source_config 1 5 "k" stamped_value empty_cache = Some st'
    ∧ (6 - 5 ≤ ttl source_config)%Z
    ∧ (getArchive source_config 6 "k" st').1 = Some item
    ∧ (∀ f, f ≠ "timestamp" → item !! f = stamped_value !! f)
    ∧ item !! "timestamp" = Some (JNum 5).
Proof.
  assert (setArchive source_config 1 5 "k" stamped_value empty_cache
          = Some (Cache {[ "k" := stamp 5 stamped_value ]} ["k"])) as Hset
    by (vm_compute; reflexivity).
  assert (6 - 5 ≤ ttl source_config)%Z as Hnow by (vm_compute; discriminate).
  destruct (proj2 (setArchive_payload source_config 1 5 "k" stamped_value
                     empty_cache) _ 6%Z Hset Hnow) as (item & Hget & Hf & Hts).
  exists (Cache {[ "k" := stamp 5 stamped_value ]} ["k"]), item.
  exact (conj Hset (conj Hnow (conj Hget (conj Hf Hts)))).
Defined.

Lemma has_raw_presence_witness :
  _archiveStore example_cache !! "a" = Some (stamp 0 example_value)
  ∧ stamp 0 example_value !! "timestamp" = Some (JNum 0)
  ∧ (ttl example_config < 150 - 0)%Z
  ∧ (has "a" example_cache).1 = true
  ∧ (getArchive example_config 150 "a" example_cache).1 = None
  ∧ (has "a" (getArchive example_config 150 "a" example_cache).2).1 = false.
Proof.
  assert (_archiveStore example_cache !! "a" = Some (stamp 0 example_value))
    as Ha by (vm_compute; reflexivity).
  assert (stamp 0 example_value !! "timestamp" = Some (JNum 0)) as Hts
    by (vm_compute; reflexivity).
  assert (ttl example_config < 150 - 0)%Z as Hold by (simpl; lia).
  exact (conj Ha (conj Hts (conj Hold
    (proj2 (has_raw_presence example_config 150 "a" example_cache)
       _ _ Ha Hts Hold)))).
Defined.

Lemma deleteArchive_spec_witness :
  cache_inv example_config example_cache
  ∧ _archiveStore (deleteArchive "a" example_cache) !! "a" = None
  ∧ ("a" ∉ _archiveOrder (deleteArchive "a" example_cache))
  ∧ _archiveStore example_cache !! "zz" = None
  ∧ deleteArchive "zz" example_cache = example_cache
  ∧ deleteArchive "a" (deleteArchive "a" example_cache)
    = deleteArchive "a" example_cache.
Proof.
  assert (cache_inv example_config example_cache) as Hinv
    by (apply (bool_decide_unpack _); vm_compute; exact I).
  assert (_archiveStore example_cache !! "zz" = None) as Hzz
    by (vm_compute; reflexivity).
  destruct (deleteArchive_spec example_config "a" example_cache Hinv)
    as (D1 & D2 & _ & _ & _ & D3).
  destruct (deleteArchive_spec example_config "zz" example_cache Hinv)
    as (_ & _ & _ & _ & D4 & _).
  exact (conj Hinv (conj D1 (conj D2 (conj Hzz (conj (proj1 (D4 Hzz)) D3))))).
Defined.

Lemma setArchive_frame_witness :
  cache_inv example_config example_cache
  ∧ 1 ≤ capacity example_config
  ∧ ∃ st' evicted,
      setArchive example_config 1 20 "c" example_value example_cache = Some st'
      ∧ (∀ k, is_Some (_archiveStore example_cache !! k) →
              _archiveStore st' !! k = None → evicted = Some k)
      ∧ (∀ k, k ≠ "c" → evicted ≠ Some k →
              _archiveStore st' !! k = _archiveStore example_cache !! k)
      ∧ filter (λ k, k ≠ "c") (_archiveOrder st')
        = filter (λ k, k ≠ "c" ∧ evicted ≠ Some k)
            (_archiveOrder example_cache).
Proof.
  assert (cache_inv example_config example_cache) as Hinv
    by (apply (bool_decide_unpack _); vm_compute; exact I).
  assert (1 ≤ capacity example_config) as Hcap by (simpl; lia).
  destruct (setArchive_frame example_config 1 20 "c" example_value
              example_cache Hinv Hcap (le_n 1))
    as (st' & evicted & Hset & _ & F1 & F2 & F3).
  split; [exact Hinv|]. split; [exact Hcap|].
  exists st', evicted. exact (conj Hset (conj F1 (conj F2 F3))).
Defined.

Lemma has_no_side_effect_witness :
  _archiveStore example_cache !! "a" = Some (stamp 0 example_value)
  ∧ expired example_config 150 (stamp 0 example_value) = true
  ∧ (has "a" example_cache).2 = example_cache
  ∧ _archiveStore (has "a" example_cache).2 !! "a"
    = Some (stamp 0 example_value).
Proof.
  assert (_archiveStore example_cache !! "a" = Some (stamp 0 example_value))
    as Ha by (vm_compute; reflexivity).
  assert (expired example_config 150 (stamp 0 example_value) = true) as Hexp
    by (vm_compute; reflexivity).
  destruct (has_no_side_effect "a" example_cache) as (H1 & _ & _ & H2).
  exact (conj Ha (conj Hexp (conj H1 (H2 _ _ _ Ha Hexp)))).
Defined.

(** * Further properties of the operations *)

(** ** More on the array primitives *)

Lemma remove_from_order_keeps_others key l :
  filter (λ k, k ≠ key) (remove_from_order key l) = filter (λ k, k ≠ key) l.
Proof.
  induction l as [|x r IH]; [done|].
  rewrite remove_from_order_cons. destruct (decide (x = key)) as [->|Hne].
  - by rewrite filter_cons_False by (intros ?; done).
  - by rewrite !filter_cons_True, IH by done.
Qed.

Lemma remove_from_order_snoc key l :
  key ∉ l → remove_from_order key (l ++ [key]) = l.
Proof.
  induction l as [|x r IH]; simpl.
  - intros _. rewrite remove_from_order_cons. by rewrite decide_True.
  - rewrite not_elem_of_cons. intros [Hne Hr].
    rewrite remove_from_order_cons, decide_False by done. by rewrite IH.
Qed.

Lemma filter_push_key key l :
  filter (λ k, k ≠ key) (push key l) = filter (λ k, k ≠ key) l.
Proof.
  unfold push. rewrite filter_app.
  rewrite (filter_cons_False _ key []) by (intros ?; done).
  by rewrite filter_nil, app_nil_r.
Qed.

Lemma elem_of_dropped (k : string) n (l : list string) :
  k ∈ drop n l → k ∈ l.
Proof.
  intros Hk. rewrite <- (take_drop n l). apply elem_of_app. by right.
Qed.

(** ** Reading *)

(** An entry that [get] returns, in a state the interface can reach, is the
    one stored under the key, is left in the mapping, and is not older than
    [ttl]: [get] never hands out an expired entry. *)
Theorem getArchive_returns_unexpired cfg fuel cs st now key item :
  run cfg fuel cs empty_cache = Some st →
  (getArchive cfg now key st).1 = Some item →
  _archiveStore st !! key = Some item
  ∧ _archiveStore (getArchive cfg now key st).2 = _archiveStore st
  ∧ ∃ t, item !! "timestamp" = Some (JNum t) ∧ (now - t ≤ ttl cfg)%Z.
Proof.
  intros Hrun. pose proof (run_stamped _ _ _ _ Hrun) as Hst.
  unfold getArchive.
  destruct (_archiveStore st !! key) as [item'|] eqn:Hitem; [|done].
  destruct (Hst _ _ Hitem) as [t Hts].
  destruct (expired cfg now item') eqn:Hexp; simpl; [done|].
  intros [= ->]. split_and!; [done | by destruct (indexOf _ _) | ].
  exists t. split; [done|]. unfold expired in Hexp. rewrite Hts in Hexp.
  apply bool_decide_eq_false in Hexp. lia.
Qed.

Lemma getArchive_returns_unexpired_witness :
  run example_config 1
    [(0%Z, CallSet "a" example_value); (10%Z, CallSet "b" example_value)]
    empty_cache = Some example_cache
  ∧ (getArchive example_config 50 "a" example_cache).1
    = Some (stamp 0 example_value)
  ∧ ∃ t, stamp 0 example_value !! "timestamp" = Some (JNum t)
         ∧ (50 - t ≤ ttl example_config)%Z.
Proof.
  assert (run example_config 1
            [(0%Z, CallSet "a" example_value); (10%Z, CallSet "b" example_value)]
            empty_cache = Some example_cache) as Hrun
    by (vm_compute; reflexivity).
  assert ((getArchive example_config 50 "a" example_cache).1
          = Some (stamp 0 example_value)) as Hget
    by (vm_compute; reflexivity).
  destruct (getArchive_returns_unexpired _ _ _ _ _ _ _ Hrun Hget)
    as (_ & _ & Ht).
  exact (conj Hrun (conj Hget Ht)).
Defined.

(** The lifetime of an entry is counted from its [set], not from its last
    read: a [get] that finds the entry unexpired does not keep a later [get],
    more than [ttl] after the entry's timestamp, from purging it. *)
Theorem read_does_not_extend_lifetime cfg now1 now2 key st item t :
  _archiveStore st !! key = Some item →
  item !! "timestamp" = Some (JNum t) →
  (now1 - t ≤ ttl cfg)%Z → (ttl cfg < now2 - t)%Z →
  (getArchive cfg now1 key st).1 = Some item
  ∧ (getArchive cfg now2 key (getArchive cfg now1 key st).2).1 = None
  ∧ _archiveStore
      (getArchive cfg now2 key (getArchive cfg now1 key st).2).2 !! key = None.
Proof.
  intros Hitem Hts Hnew Hold.
  assert (expired cfg now1 item = false) as Hexp1.
  { unfold expired. rewrite Hts. apply bool_decide_eq_false_2. lia. }
  assert (expired cfg now2 item = true) as Hexp2.
  { unfold expired. rewrite Hts. by apply bool_decide_eq_true_2. }
  assert (_archiveStore (getArchive cfg now1 key st).2 !! key = Some item)
    as Hitem1.
  { rewrite (getArchive_order _ _ _ _ _ Hitem Hexp1).
    by destruct (indexOf _ _). }
  split.
  - unfold getArchive. by rewrite Hitem, Hexp1.
  - unfold getArchive at 1 3. rewrite Hitem1, Hexp2. simpl.
    split; [done | apply lookup_delete_eq].
Qed.

Lemma read_does_not_extend_lifetime_witness :
  _archiveStore example_cache !! "a" = Some (stamp 0 example_value)
  ∧ (getArchive example_config 90 "a" example_cache).1
    = Some (stamp 0 example_value)
  ∧ (getArchive example_config 101 "a"
       (getArchive example_config 90 "a" example_cache).2).1 = None.
Proof.
  assert (_archiveStore example_cache !! "a" = Some (stamp 0 example_value))
    as Ha by (vm_compute; reflexivity).
  assert (stamp 0 example_value !! "timestamp" = Some (JNum 0)) as Hts
    by (vm_compute; reflexivity).
  assert (90 - 0 ≤ ttl example_config)%Z as Hnew by (simpl; lia).
  assert (ttl example_config < 101 - 0)%Z as Hold by (simpl; lia).
  destruct (read_does_not_extend_lifetime example_config 90 101 "a"
              example_cache _ _ Ha Hts Hnew Hold) as (G1 & G2 & _).
  exact (conj Ha (conj G1 G2)).
Defined.

(** From any state, [get(key)] touches nothing but [key]: the entries of
    the other keys and the relative order of the other keys are as before,
    and no entry appears or changes. *)
Theorem getArchive_frame cfg now key st :
  (∀ k, k ≠ key →
     _archiveStore (getArchive cfg now key st).2 !! k = _archiveStore st !! k)
  ∧ (∀ k item,
       _archiveStore (getArchive cfg now key st).2 !! k = Some item →
       _archiveStore st !! k = Some item)
  ∧ filter (λ k, k ≠ key) (_archiveOrder (getArchive cfg now key st).2)
    = filter (λ k, k ≠ key) (_archiveOrder st).
Proof.
  destruct (_archiveStore st !! key) as [item|] eqn:Hitem.
  - destruct (expired cfg now item) eqn:Hexp.
    + unfold getArchive. rewrite Hitem, Hexp. simpl. split_and!.
      * intros k Hk. by rewrite lookup_delete_ne.
      * by intros k i [_ ?]%lookup_delete_Some.
      * apply remove_from_order_keeps_others.
    + rewrite (getArchive_order _ _ _ _ _ Hitem Hexp).
      destruct (indexOf _ _); [simpl|done].
      split_and!; [done | done | ].
      by rewrite filter_push_key, remove_from_order_keeps_others.
  - unfold getArchive. by rewrite Hitem.
Qed.

Lemma getArchive_frame_witness :
  "b" ≠ "a"
  ∧ _archiveStore (getArchive example_config 150 "a" example_cache).2 !! "b"
    = _archiveStore example_cache !! "b"
  ∧ filter (λ k, k ≠ "a")
      (_archiveOrder (getArchive example_config 50 "a" example_cache).2)
    = filter (λ k, k ≠ "a") (_archiveOrder example_cache).
Proof.
  assert ("b" ≠ "a") as Hne by discriminate.
  exact (conj Hne
    (conj (proj1 (getArchive_frame example_config 150 "a" example_cache) "b" Hne)
          (proj2 (proj2 (getArchive_frame example_config 50 "a" example_cache))))).
Defined.

(** In a state that satisfies the invariant, a second [get] of a key right
    after a [get] that returned its entry, the entry still being unexpired,
    returns the same entry and changes nothing: the key is at the back
    already. *)
Theorem getArchive_twice cfg now now' key st item t :
  cache_inv cfg st →
  _archiveStore st !! key = Some item →
  item !! "timestamp" = Some (JNum t) →
  (now - t ≤ ttl cfg)%Z → (now' - t ≤ ttl cfg)%Z →
  getArchive cfg now' key (getArchive cfg now key st).2
  = (Some item, (getArchive cfg now key st).2).
Proof.
  intros Hinv Hitem Hts Hnow Hnow'. pose proof Hinv as (Hnd & _ & _).
  assert (∀ n, (n - t ≤ ttl cfg)%Z → expired cfg n item = false) as Hexp.
  { intros n Hn. unfold expired. rewrite Hts.
    apply bool_decide_eq_false_2. lia. }
  assert (key ∈ _archiveOrder st) as Hin
    by (apply (inv_elem_of cfg); [done | by rewrite Hitem]).
  pose proof Hin as [idx Hidx]%indexOf_is_Some.
  rewrite (getArchive_order _ _ _ _ _ Hitem (Hexp _ Hnow)), Hidx.
  set (st1 := Cache _ _).
  assert (indexOf key (_archiveOrder st1) ≠ None) as Hidx1.
  { rewrite indexOf_None. intros Hn. apply Hn. simpl. unfold push.
    apply elem_of_app. right. apply list_elem_of_here. }
  pose proof (getArchive_order cfg now' key st1 item Hitem (Hexp _ Hnow'))
    as Ho.
  destruct (indexOf key (_archiveOrder st1)) as [idx1|] eqn:E1; [|done].
  assert ((getArchive cfg now' key st1).1 = Some item) as Hres
    by (unfold getArchive; simpl; by rewrite Hitem, (Hexp _ Hnow')).
  destruct (getArchive cfg now' key st1) as [res st2]. simpl in *.
  subst res st2. f_equal. unfold st1. f_equal. simpl. unfold push at 2.
  rewrite remove_from_order_snoc; [done|].
  rewrite remove_from_order_filter, list_elem_of_filter by done. tauto.
Qed.

Lemma getArchive_twice_witness :
  cache_inv example_config example_cache
  ∧ getArchive example_config 60 "a"
      (getArchive example_config 50 "a" example_cache).2
    = (Some (stamp 0 example_value),
       (getArchive example_config 50 "a" example_cache).2).
Proof.
  assert (cache_inv example_config example_cache) as Hinv
    by (apply (bool_decide_unpack _); vm_compute; exact I).
  assert (_archiveStore example_cache !! "a" = Some (stamp 0 example_value))
    as Ha by (vm_compute; reflexivity).
  assert (stamp 0 example_value !! "timestamp" = Some (JNum 0)) as Hts
    by (vm_compute; reflexivity).
  assert (50 - 0 ≤ ttl example_config)%Z as H1 by (simpl; lia).
  assert (60 - 0 ≤ ttl example_config)%Z as H2 by (simpl; lia).
  exact (conj Hinv
    (getArchive_twice example_config 50 60 "a" example_cache _ _
       Hinv Ha Hts H1 H2)).
Defined.

(** ** The eviction loop, from any state *)

Lemma evict_loop_drop fuel cap st st' :
  evict_loop fuel cap st = Some st' →
  _archiveOrder st'
  = drop (length (_archiveOrder st) + 1 - cap) (_archiveOrder st)
  ∧ ∀ k, _archiveStore st' !! k
         = if decide (k ∈ take (length (_archiveOrder st) + 1 - cap)
                              (_archiveOrder st))
           then None else _archiveStore st !! k.
Proof.
  revert st. induction fuel as [|fuel IH]; intros st; simpl.
  - destruct (decide _) as [|Hlt]; [done|]. intros [= <-].
    replace (length (_archiveOrder st) + 1 - cap) with 0 by lia.
    split; [done|]. intros k. rewrite take_0.
    by rewrite decide_False by apply not_elem_of_nil.
  - destruct (decide _) as [Hge|Hlt].
    + destruct (_archiveOrder st) as [|k0 r] eqn:Ho; simpl.
      { assert (cap = 0) as -> by (simpl in Hge; lia).
        by rewrite evict_loop_zero. }
      intros E. destruct (IH _ E) as [IHo IHs]. simpl in *.
      replace (S (length r + 1) - cap) with (S (length r + 1 - cap)) by lia.
      split; [done|]. intros k. rewrite IHs. simpl.
      destruct (decide (k = k0)) as [->|Hne].
      * rewrite (decide_True (P := k0 ∈ k0 :: _)) by apply list_elem_of_here.
        rewrite lookup_delete_eq. by destruct (decide _).
      * rewrite lookup_delete_ne by done.
        destruct (decide (k ∈ take _ r)) as [Hin|Hnin].
        -- by rewrite decide_True by (by apply list_elem_of_further).
        -- rewrite decide_False; [done|].
           rewrite not_elem_of_cons. done.
    + intros [= <-].
      replace (length (_archiveOrder st) + 1 - cap) with 0 by lia.
      split; [done|]. intros k. rewrite take_0.
      by rewrite decide_False by apply not_elem_of_nil.
Qed.

(** With a capacity of at least 1 the eviction loop of [setArchive] exits,
    from any state, after [n = length order + 1 - capacity] iterations (none
    when the order is shorter than the capacity): it has dropped the first
    [n] keys from the order and from the mapping, and left every other entry
    as it was. *)
Theorem evict_loop_spec fuel cap st :
  1 ≤ cap → length (_archiveOrder st) + 1 - cap ≤ fuel →
  ∃ st', evict_loop fuel cap st = Some st'
    ∧ _archiveOrder st'
      = drop (length (_archiveOrder st) + 1 - cap) (_archiveOrder st)
    ∧ length (_archiveOrder st') = min (length (_archiveOrder st)) (cap - 1)
    ∧ ∀ k, _archiveStore st' !! k
           = if decide (k ∈ take (length (_archiveOrder st) + 1 - cap)
                                (_archiveOrder st))
             then None else _archiveStore st !! k.
Proof.
  intros Hcap Hfuel.
  destruct (evict_loop_terminates fuel cap st Hcap Hfuel) as [st' E].
  exists st'. destruct (evict_loop_drop _ _ _ _ E) as [Ho Hs].
  split_and!; [done | done | | done].
  rewrite Ho, length_drop. lia.
Qed.

Lemma evict_loop_spec_witness :
  ∃ st',
    evict_loop 2 2 (Cache (_archiveStore example_cache) ["a"; "b"; "zz"])
    = Some st'
    ∧ _archiveOrder st' = ["zz"]
    ∧ _archiveStore st' !! "a" = None
    ∧ _archiveStore st' !! "b" = None.
Proof.
  destruct (evict_loop_spec 2 2
              (Cache (_archiveStore example_cache) ["a"; "b"; "zz"]))
    as (st' & E & Ho & _ & Hs); [lia | simpl; lia | ].
  exists st'. split; [exact E|]. split; [exact Ho|].
  split; [exact (Hs "a") | exact (Hs "b")].
Defined.

(** ** Writing *)

(** From any state, [set(key, value)] brings in no other key than [key] and
    changes no other entry: an entry found under another key afterwards was
    there, unchanged, before; and a key of the order afterwards is [key] or
    was in the order before. *)
Theorem setArchive_adds_only_key cfg fuel now key value st st' :
  setArchive cfg fuel now key value st = Some st' →
  (∀ k item, k ≠ key → _archiveStore st' !! k = Some item →
             _archiveStore st !! k = Some item)
  ∧ (∀ k, k ∈ _archiveOrder st' → k = key ∨ k ∈ _archiveOrder st).
Proof.
  unfold setArchive.
  destruct (evict_loop _ _ _) as [st2|] eqn:E; [|done]. simpl.
  intros [= <-]. simpl. split.
  - intros k item Hne. rewrite lookup_insert_ne by done. intros Hk.
    apply (evict_loop_lookup _ _ _ _ _ _ E) in Hk.
    by destruct (decide _).
  - intros k. unfold push. rewrite elem_of_app, list_elem_of_singleton.
    intros [Hk | ->]; [right | by left].
    destruct (evict_loop_drop _ _ _ _ E) as [Ho _]. rewrite Ho in Hk.
    apply elem_of_dropped in Hk.
    destruct (decide _); simpl in Hk; [|done].
    destruct (decide (k ∈ _archiveOrder st)) as [|Hn]; [done|].
    rewrite remove_from_order_notin in Hk; [done|].
    intros Hkey. apply Hn.
    destruct (decide (k = key)) as [->|Hne]; [done|].
    assert (k ∈ filter (λ x, x ≠ key)
                  (remove_from_order key (_archiveOrder st))) as Hf
      by (by apply list_elem_of_filter).
    rewrite remove_from_order_keeps_others in Hf.
    by apply list_elem_of_filter in Hf as [_ ?].
Qed.

Lemma setArchive_adds_only_key_witness :
  ∃ st',
    setArchive example_config 1 20 "c" example_value example_cache = Some st'
    ∧ (∀ k item, k ≠ "c" → _archiveStore st' !! k = Some item →
                 _archiveStore example_cache !! k = Some item)
    ∧ (∀ k, k ∈ _archiveOrder st' → k = "c" ∨ k ∈ _archiveOrder example_cache).
Proof.
  eexists. split; [vm_compute; reflexivity|].
  apply (setArchive_adds_only_key example_config 1 20 "c" example_value
           example_cache).
  vm_compute. reflexivity.
Defined.

(** In a state that satisfies the invariant, with room left, setting a key
    that is not cached and deleting it again gives the state back. *)
Theorem set_then_delete cfg fuel now key value st :
  cache_inv cfg st →
  _archiveStore st !! key = None →
  length (_archiveOrder st) < capacity cfg →
  ∃ st', setArchive cfg fuel now key value st = Some st'
    ∧ deleteArchive key st' = st.
Proof.
  intros Hinv Hnone Hlt. eexists. split; [by apply setArchive_fresh|].
  assert (key ∉ _archiveOrder st) as Hnin.
  { rewrite (inv_elem_of cfg) by done. rewrite Hnone. by intros []. }
  unfold deleteArchive, push. simpl.
  rewrite delete_insert_id by done.
  rewrite remove_from_order_snoc by done. by destruct st.
Qed.

Lemma set_then_delete_witness :
  cache_inv example_config
    (Cache {[ "a" := stamp 0 example_value ]} ["a"])
  ∧ ∃ st',
      setArchive example_config 0 10 "b" example_value
        (Cache {[ "a" := stamp 0 example_value ]} ["a"]) = Some st'
      ∧ deleteArchive "b" st'
        = Cache {[ "a" := stamp 0 example_value ]} ["a"].
Proof.
  assert (cache_inv example_config
            (Cache {[ "a" := stamp 0 example_value ]} ["a"])) as Hinv
    by (apply (bool_decide_unpack _); vm_compute; exact I).
  split; [exact Hinv|].
  apply (set_then_delete example_config 0 10 "b" example_value _ Hinv).
  - vm_compute. reflexivity.
  - simpl. lia.
Defined.

(** In a state that satisfies the invariant, [set(key, value)] is
    [delete(key)] followed by [set(key, value)]: overwriting keeps nothing
    of the old entry, neither its fields nor its place in the order. *)
Theorem delete_then_set cfg fuel now key value st :
  cache_inv cfg st →
  setArchive cfg fuel now key value (deleteArchive key st)
  = setArchive cfg fuel now key value st.
Proof.
  intros Hinv. pose proof Hinv as (Hnd & Hdom & Hlen).
  destruct (_archiveStore st !! key) as [item|] eqn:Hitem.
  - assert (key ∈ _archiveOrder st) as Hin
      by (apply (inv_elem_of cfg); [done | by rewrite Hitem]).
    rewrite (setArchive_overwrite cfg fuel now key value st)
      by (done || by rewrite Hitem).
    rewrite setArchive_fresh; simpl.
    + by rewrite insert_delete_eq.
    + apply lookup_delete_eq.
    + apply remove_from_order_length in Hin. lia.
  - assert (key ∉ _archiveOrder st) as Hnin.
    { rewrite (inv_elem_of cfg) by done. rewrite Hitem. by intros []. }
    unfold deleteArchive.
    rewrite delete_id, remove_from_order_notin by done. by destruct st.
Qed.

Lemma delete_then_set_witness :
  cache_inv example_config example_cache
  ∧ setArchive example_config 1 20 "a" stamped_value
      (deleteArchive "a" example_cache)
    = setArchive example_config 1 20 "a" stamped_value example_cache.
Proof.
  assert (cache_inv example_config example_cache) as Hinv
    by (apply (bool_decide_unpack _); vm_compute; exact I).
  exact (conj Hinv
    (delete_then_set example_config 1 20 "a" stamped_value example_cache Hinv)).
Defined.

(** After a [set(key, _)] from a state that satisfies the invariant, another
    [set] of the same key replaces the entry and nothing else: the order is
    as it was and no key is evicted.  With the same value at the same time,
    the second [set] changes nothing. *)
Theorem setArchive_again cfg fuel fuel' now now' key value value' st st1 :
  cache_inv cfg st →
  setArchive cfg fuel now key value st = Some st1 →
  setArchive cfg fuel' now' key value' st1
  = Some (Cache (<[key := stamp now' value']> (_archiveStore st1))
                (_archiveOrder st1))
  ∧ setArchive cfg fuel' now key value st1 = Some st1.
Proof.
  intros Hinv Hset.
  pose proof (setArchive_inv _ _ _ _ _ _ _ Hinv Hset) as Hinv1.
  destruct (setArchive_stored _ _ _ _ _ _ _ Hset) as (_ & Hlast & Hitem).
  apply last_Some in Hlast as [l Hl].
  assert (key ∉ l) as Hnin.
  { destruct Hinv1 as (Hnd & _ & _). rewrite Hl in Hnd.
    apply NoDup_app in Hnd as (_ & Hd & _). intros Hk.
    apply (Hd _ Hk). apply list_elem_of_here. }
  assert (∀ n v, setArchive cfg fuel' n key v st1
                 = Some (Cache (<[key := stamp n v]> (_archiveStore st1))
                               (_archiveOrder st1))) as Hagain.
  { intros n v. rewrite setArchive_overwrite by (done || by rewrite Hitem).
    rewrite Hl, remove_from_order_snoc by done. done. }
  split; [apply Hagain|].
  rewrite Hagain, insert_id by done. by destruct st1.
Qed.

Lemma setArchive_again_witness :
  cache_inv example_config example_cache
  ∧ ∃ st1,
      setArchive example_config 1 20 "c" example_value example_cache
      = Some st1
      ∧ setArchive example_config 0 30 "c" stamped_value st1
        = Some (Cache (<["c" := stamp 30 stamped_value]> (_archiveStore st1))
                      (_archiveOrder st1))
      ∧ setArchive example_config 0 20 "c" example_value st1 = Some st1.
Proof.
  assert (cache_inv example_config example_cache) as Hinv
    by (apply (bool_decide_unpack _); vm_compute; exact I).
  split; [exact Hinv|]. eexists. split; [vm_compute; reflexivity|].
  apply (setArchive_again example_config 1 0 20 30 "c" example_value
           stamped_value example_cache _ Hinv).
  vm_compute. reflexivity.
Defined.

(** Which keys are cached after a [set], and in which order, depends only on
    which keys were cached and in which order: not on the payloads, not on
    the timestamps, not on the clock.  [set] never expires an entry and never
    spares one for being recent in time. *)
Lemma evict_loop_same_keys fuel cap sa sb sa' :
  _archiveOrder sa = _archiveOrder sb →
  dom (_archiveStore sa) = dom (_archiveStore sb) →
  evict_loop fuel cap sa = Some sa' →
  ∃ sb', evict_loop fuel cap sb = Some sb'
    ∧ _archiveOrder sa' = _archiveOrder sb'
    ∧ dom (_archiveStore sa') = dom (_archiveStore sb').
Proof.
  revert sa sb. induction fuel as [|fuel IH]; intros sa sb Ho Hd; simpl;
    rewrite <- Ho.
  - destruct (decide _); [done|]. intros [= <-]. eauto.
  - destruct (decide _); [|intros [= <-]; eauto].
    destruct (shift (_archiveOrder sa)) as [oldest rest]. apply IH; [done|].
    destruct oldest as [k0|]; simpl; [|done].
    by rewrite !dom_delete_L, Hd.
Qed.

Theorem setArchive_keys_only cfg fuel now1 now2 key value1 value2 st1 st2 st1' :
  _archiveOrder st1 = _archiveOrder st2 →
  dom (_archiveStore st1) = dom (_archiveStore st2) →
  setArchive cfg fuel now1 key value1 st1 = Some st1' →
  ∃ st2', setArchive cfg fuel now2 key value2 st2 = Some st2'
    ∧ _archiveOrder st1' = _archiveOrder st2'
    ∧ dom (_archiveStore st1') = dom (_archiveStore st2').
Proof.
  intros Ho Hd. unfold setArchive.
  set (sa := if decide (is_Some (_archiveStore st1 !! key)) then _ else st1).
  set (sb := if decide (is_Some (_archiveStore st2 !! key)) then _ else st2).
  assert (is_Some (_archiveStore st1 !! key)
          ↔ is_Some (_archiveStore st2 !! key)) as Hkey
    by (by rewrite <- !elem_of_dom, Hd).
  assert (_archiveOrder sa = _archiveOrder sb
          ∧ dom (_archiveStore sa) = dom (_archiveStore sb)) as [Hoa Hda].
  { subst sa sb. do 2 destruct (decide _); simpl;
      first [tauto | by rewrite Ho | done]. }
  destruct (evict_loop fuel (capacity cfg) sa) as [sa'|] eqn:E; [|done].
  destruct (evict_loop_same_keys _ _ _ sb _ Hoa Hda E)
    as (sb' & -> & Ho' & Hd').
  simpl. intros [= <-]. eexists. split; [done|]. simpl.
  by rewrite Ho', !dom_insert_L, Hd'.
Qed.

Lemma setArchive_keys_only_witness :
  ∃ st1' st2',
    setArchive example_config 1 20 "c" example_value example_cache = Some st1'
    ∧ setArchive example_config 1 5000 "c" stamped_value
        (Cache {[ "a" := stamp 4000 stamped_value; "b" := stamp 7 ∅ ]}
               ["a"; "b"]) = Some st2'
    ∧ _archiveOrder st1' = _archiveOrder st2'
    ∧ dom (_archiveStore st1') = dom (_archiveStore st2').
Proof.
  assert (setArchive example_config 1 20 "c" example_value example_cache
          = Some (Cache {[ "b" := stamp 10 example_value;
                           "c" := stamp 20 example_value ]} ["b"; "c"]))
    as Hset by (vm_compute; reflexivity).
  assert (dom (_archiveStore example_cache)
          = dom (_archiveStore
                   (Cache {[ "a" := stamp 4000 stamped_value;
                             "b" := stamp 7 ∅ ]} ["a"; "b"]))) as Hd
    by (vm_compute; reflexivity).
  assert (_archiveOrder example_cache
          = _archiveOrder
              (Cache {[ "a" := stamp 4000 stamped_value;
                        "b" := stamp 7 ∅ ]} ["a"; "b"])) as Ho
    by reflexivity.
  destruct (setArchive_keys_only example_config 1 20 5000 "c" example_value
              stamped_value _ _ _ Ho Hd Hset)
    as (st2' & H2 & Ho' & Hd').
  eexists _, st2'. exact (conj Hset (conj H2 (conj Ho' Hd'))).
Defined.

(** ** Filling the cache *)

Lemma run_sets_order cfg fuel ins :
  1 ≤ capacity cfg → 1 ≤ fuel → NoDup (set_keys ins) →
  ∃ st', run cfg fuel (set_calls ins) empty_cache = Some st'
    ∧ _archiveOrder st' = drop (length ins - capacity cfg) (set_keys ins)
    ∧ cache_inv cfg st'.
Proof.
  intros Hcap Hfuel.
  induction ins as [|[now [k v]] ins IH] using rev_ind; intros Hnd.
  - exists empty_cache. split_and!; [done | done | apply empty_cache_inv].
  - rewrite set_keys_snoc in *. rewrite set_calls_snoc, length_app. simpl.
    apply NoDup_app in Hnd as (Hnd0 & Hdisj & _).
    destruct (IH Hnd0) as ([m o] & Hrun & Ho & Hinv). simpl in Ho.
    assert (length (set_keys ins) = length ins) as Hlen
      by (unfold set_keys; by rewrite length_fmap).
    assert (k ∉ set_keys ins) as Hk0
      by (intros Hin; apply (Hdisj _ Hin), list_elem_of_here).
    assert (m !! k = None) as Hnone.
    { apply eq_None_not_Some. intros Hs.
      apply (inv_elem_of cfg (Cache m o) k Hinv) in Hs. simpl in Hs.
      rewrite Ho in Hs. by apply elem_of_dropped in Hs. }
    rewrite run_app, Hrun. simpl.
    assert (∃ st', setArchive cfg fuel now k v (Cache m o) = Some st'
              ∧ _archiveOrder st'
                = drop (length ins + 1 - capacity cfg) (set_keys ins ++ [k]))
      as (st' & Hset & Ho').
    { destruct (decide (length ins < capacity cfg)) as [Hlt|Hge].
      - replace (length ins - capacity cfg) with 0 in Ho by lia.
        rewrite drop_0 in Ho.
        rewrite setArchive_fresh;
          [ | done | simpl; rewrite Ho, Hlen; lia].
        eexists. split; [done|]. simpl.
        replace (length ins + 1 - capacity cfg) with 0 by lia.
        by rewrite Ho.
      - assert (length o = capacity cfg) as Hfull
          by (rewrite Ho, length_drop; lia).
        destruct o as [|k0 r]; [simpl in Hfull; lia|].
        destruct fuel as [|fuel]; [lia|].
        rewrite setArchive_evict by done.
        eexists. split; [done|]. simpl. unfold push.
        replace (length ins + 1 - capacity cfg)
          with ((length ins - capacity cfg) + 1) by lia.
        rewrite drop_app_le by lia.
        by rewrite <- drop_drop, <- Ho. }
    exists st'. rewrite Hset. split_and!; [done | done | ].
    by eapply setArchive_inv.
Qed.

(** Setting [n] distinct keys on the fresh cache, with a capacity of at
    least 1, completes and leaves exactly the last [capacity] of them (all of
    them when [n <= capacity]): [stats().keys] lists them in the order of
    their insertion, [stats().size] is [min n capacity], [stats().maxSize] is
    the capacity, and [has] is true for these keys and no other. *)
Theorem run_sets_keeps_last cfg fuel ins :
  1 ≤ capacity cfg → 1 ≤ fuel → NoDup (set_keys ins) →
  ∃ st', run cfg fuel (set_calls ins) empty_cache = Some st'
    ∧ keys (getArchiveCacheStats cfg st').1
      = drop (length ins - capacity cfg) (set_keys ins)
    ∧ size (getArchiveCacheStats cfg st').1
      = min (length ins) (capacity cfg)
    ∧ maxSize (getArchiveCacheStats cfg st').1 = capacity cfg
    ∧ ∀ k, (has k st').1 = true
           ↔ k ∈ drop (length ins - capacity cfg) (set_keys ins).
Proof.
  intros Hcap Hfuel Hnd.
  destruct (run_sets_order cfg fuel ins Hcap Hfuel Hnd)
    as (st' & Hrun & Ho & Hinv).
  exists st'. simpl. split_and!; [done | done | | done | ].
  - rewrite (inv_size cfg) by done. rewrite Ho, length_drop.
    unfold set_keys. rewrite length_fmap. lia.
  - intros k. rewrite bool_decide_eq_true, <- Ho.
    symmetry. by apply (inv_elem_of cfg).
Qed.

Lemma run_sets_keeps_last_witness :
  ∃ st',
    run example_config 1
      (set_calls [(0%Z, ("a", example_value)); (1%Z, ("b", stamped_value));
                  (2%Z, ("c", example_value)); (3%Z, ("d", example_value))])
      empty_cache = Some st'
    ∧ keys (getArchiveCacheStats example_config st').1 = ["c"; "d"]
    ∧ size (getArchiveCacheStats example_config st').1 = 2.
Proof.
  destruct (run_sets_keeps_last example_config 1
              [(0%Z, ("a", example_value)); (1%Z, ("b", stamped_value));
               (2%Z, ("c", example_value)); (3%Z, ("d", example_value))])
    as (st' & Hrun & Hkeys & Hsize & _).
  - simpl. lia.
  - lia.
  - apply (bool_decide_unpack _). vm_compute. exact I.
  - exists st'. exact (conj Hrun (conj Hkeys Hsize)).
Defined.

(** ** Deleting *)

Lemma remove_from_order_commute k1 k2 l :
  remove_from_order k1 (remove_from_order k2 l)
  = remove_from_order k2 (remove_from_order k1 l).
Proof.
  destruct (decide (k1 = k2)) as [->|Hne]; [done|].
  induction l as [|x r IH]; [done|].
  rewrite !(remove_from_order_cons _ x r).
  destruct (decide (x = k1)) as [E1|H1], (decide (x = k2)) as [E2|H2].
  - congruence.
  - by rewrite remove_from_order_cons, decide_True.
  - by rewrite remove_from_order_cons, decide_True.
  - rewrite !remove_from_order_cons, !decide_False by done. by rewrite IH.
Qed.

(** From any state, two [delete] calls give the same state in either
    order. *)
Theorem deleteArchive_commute k1 k2 st :
  deleteArchive k1 (deleteArchive k2 st)
  = deleteArchive k2 (deleteArchive k1 st).
Proof.
  unfold deleteArchive. simpl.
  by rewrite delete_delete, remove_from_order_commute.
Qed.

(** From any state, [delete(key)] brings in no key and changes no entry: what
    is stored under a key afterwards was stored under it before, and the
    other keys keep their relative order. *)
Theorem deleteArchive_frame key st :
  (∀ k item, _archiveStore (deleteArchive key st) !! k = Some item →
             k ≠ key ∧ _archiveStore st !! k = Some item)
  ∧ filter (λ k, k ≠ key) (_archiveOrder (deleteArchive key st))
    = filter (λ k, k ≠ key) (_archiveOrder st)
  ∧ length (_archiveOrder st) - 1
    ≤ length (_archiveOrder (deleteArchive key st))
    ≤ length (_archiveOrder st).
Proof.
  simpl. split_and!.
  - intros k item [Hne Hk]%lookup_delete_Some. split; [by intros ->|done].
  - apply remove_from_order_keeps_others.
  - destruct (decide (key ∈ _archiveOrder st)) as [Hin|Hnin].
    + apply remove_from_order_length in Hin. lia.
    + rewrite remove_from_order_notin by done. lia.
  - apply remove_from_order_length_le.
Qed.

Lemma deleteArchive_frame_witness :
  _archiveStore (deleteArchive "a" example_cache) !! "b"
  = Some (stamp 10 example_value)
  ∧ "b" ≠ "a"
  ∧ _archiveStore example_cache !! "b" = Some (stamp 10 example_value).
Proof.
  assert (_archiveStore (deleteArchive "a" example_cache) !! "b"
          = Some (stamp 10 example_value)) as Hb
    by (vm_compute; reflexivity).
  exact (conj Hb (proj1 (deleteArchive_frame "a" example_cache) _ _ Hb)).
Defined.
